(** * whatstyle: the style-search engine, verified against its specification

    A shallow embedding of the parts of [whatstyle.py] that the
    specification makes claims about: the style algebra ([normrepr],
    [typeconv], [deep_update], [copy_with_optgroup]), the diff metric
    ([metric_for_mindiff], [avg_linelength_diffs]), the serialisation
    of subprocess results ([pack_exeresult], [unpack_exeresult]), the
    dispatcher ([run_executables]), the clang-format option variants
    and the bookkeeping of the search loop ([find_best_style]).

    Conventions.  A Python [int] is a [Z].  A Python [float] is a
    binary64 number of [SpecFloat].  A Python byte string is a
    [list byte].  A Python text string is a [string] holding its UTF-8
    encoding, so that [bytestr] is [list_byte_of_string].  An
    [OrderedDict] is an association list in insertion order. *)

From Stdlib Require Import ZArith List Bool Ascii String Lia.
From Stdlib.Strings Require Import Byte.
From Stdlib Require Import DecimalString DecimalZ DecimalPos Permutation Sorted.
From Stdlib Require Import SpecFloat Reals Lra.
From stdpp Require Import base option list gmap strings sorting.

Import ListNotations.
Open Scope string_scope.
Open Scope list_scope.
Open Scope Z_scope.

(** ** Python built-ins used by the program *)

#[global] Instance byte_eq_decision : EqDecision byte := Byte.byte_eq_dec.

Module Py.

(** [str(n)] for an integer: optional minus sign, decimal digits. *)
Definition str_of_int (n : Z) : string :=
  NilZero.string_of_int (Z.to_int n).

(** [sep.join(fragments)] *)
Definition join (sep : string) (fragments : list string) : string :=
  String.concat sep fragments.

(** [sorted(keys)] on text strings.  Python's sort is stable; so is this
    insertion sort, which puts an element behind the equal ones that
    came before it. *)
Fixpoint insert_sorted (x : string) (l : list string) : list string :=
  match l with
  | [] => [x]
  | y :: l' => if String.ltb x y then x :: y :: l' else y :: insert_sorted x l'
  end.

Definition sorted (l : list string) : list string :=
  fold_left (fun acc x => insert_sorted x acc) l [].

(** [int(text)]: surrounding whitespace is dropped, then an optional
    sign and one or more decimal digits are read.  ([int] of Python 3.6
    and later also accepts single underscores between digits, Python 2
    does not; no text that reaches [int] in the functions below
    contains one.) *)
Definition is_space (c : ascii) : bool :=
  existsb (Ascii.eqb c) [" "; "009"; "010"; "011"; "012"; "013"]%char.

Definition is_digit (c : ascii) : bool :=
  existsb (Ascii.eqb c) ["0"; "1"; "2"; "3"; "4"; "5"; "6"; "7"; "8"; "9"]%char.

Fixpoint lstrip (s : string) : string :=
  match s with
  | String c r => if is_space c then lstrip r else s
  | EmptyString => EmptyString
  end.

Fixpoint rstrip (s : string) : string :=
  match s with
  | String c r =>
      match rstrip r with
      | EmptyString => if is_space c then EmptyString else String c EmptyString
      | r' => String c r'
      end
  | EmptyString => EmptyString
  end.

Definition digits_value (ds : string) : option Z :=
  match ds with
  | EmptyString => None
  | _ => Z.of_uint <$> NilEmpty.uint_of_string ds
  end.

Definition int_of_string (s : string) : option Z :=
  match lstrip (rstrip s) with
  | String c ds =>
      if Ascii.eqb c "-" then Z.opp <$> digits_value ds
      else if Ascii.eqb c "+" then digits_value ds
      else digits_value (String c ds)
  | EmptyString => None
  end.

(** [int(data)] for a byte string. *)
Definition int_of_bytes (b : list byte) : option Z :=
  int_of_string (string_of_list_byte b).

(** Comparison of two tuples of integers: the first differing position
    decides, a proper prefix is smaller. *)
Fixpoint tuple_compare (a b : list Z) : comparison :=
  match a, b with
  | [], [] => Eq
  | [], _ :: _ => Lt
  | _ :: _, [] => Gt
  | x :: a', y :: b' =>
      match Z.compare x y with
      | Eq => tuple_compare a' b'
      | c => c
      end
  end.

Definition tuple_lt (a b : list Z) : bool :=
  match tuple_compare a b with Lt => true | _ => false end.
Definition tuple_gt (a b : list Z) : bool :=
  match tuple_compare a b with Gt => true | _ => false end.
Definition tuple_ge (a b : list Z) : bool :=
  match tuple_compare a b with Lt => false | _ => true end.

End Py.

(** ** Styles *)

Module Style.

(** An option value is a bool, an integer, a text string or a nested
    style; a style is an [OrderedDict] from option names to values. *)
Unset Elimination Schemes.
Inductive value : Type :=
| VBool (b : bool)
| VInt (n : Z)
| VStr (s : string)
| VStyle (items : list (string * value)).
Set Elimination Schemes.

Definition style : Type := list (string * value).

(** [style[key]], [None] standing for [KeyError]. *)
Fixpoint od_get {A} (key : string) (items : list (string * A)) : option A :=
  match items with
  | [] => None
  | (k, v) :: rest => if String.eqb k key then Some v else od_get key rest
  end.

(** [style[key] = v]: an existing key keeps its position, a new key is
    appended. *)
Fixpoint od_set {A} (key : string) (v : A) (items : list (string * A))
  : list (string * A) :=
  match items with
  | [] => [(key, v)]
  | (k, w) :: rest =>
      if String.eqb k key then (k, v) :: rest else (k, w) :: od_set key v rest
  end.

Definition keys {A} (items : list (string * A)) : list string := map fst items.

(** [textrepr]: booleans as [true]/[false], everything else through
    [text_type].  [normrepr] renders nested styles itself and never
    passes one to [textrepr]; that case is left empty here. *)
Definition textrepr (v : value) : string :=
  match v with
  | VBool b => if b then "true" else "false"
  | VInt n => Py.str_of_int n
  | VStr s => s
  | VStyle _ => ""
  end.

(** The fragments of [normrepr], once the values are rendered: for each
    key in sorted order, [key + ': ' + value]. *)
Definition fragments (rendered : list (string * string)) : list string :=
  map (fun key => key +:+ ": " +:+ default "" (od_get key rendered))
      (Py.sorted (keys rendered)).

(** [normrepr].  The source renders [style[key]] while it walks the
    sorted keys; here every value is rendered in place first and then
    looked up by key, which is the same string and is structurally
    recursive. *)
Fixpoint render (v : value) : string :=
  match v with
  | VStyle items =>
      "{" +:+ Py.join ", "
                (fragments (map (fun kv => let '(k, w) := kv in (k, render w)) items))
          +:+ "}"
  | _ => textrepr v
  end.

Definition normrepr (s : style) : string := render (VStyle s).

(** Induction over values, with the hypothesis available for every
    value stored in a nested style. *)
Fixpoint value_ind (P : value → Prop)
    (Hbool : ∀ b, P (VBool b)) (Hint : ∀ n, P (VInt n)) (Hstr : ∀ s, P (VStr s))
    (Hstyle : ∀ items, Forall (fun kv => P (snd kv)) items → P (VStyle items))
    (v : value) : P v :=
  match v with
  | VBool b => Hbool b
  | VInt n => Hint n
  | VStr s => Hstr s
  | VStyle items =>
      Hstyle items
        ((fix go (l : list (string * value)) : Forall (fun kv => P (snd kv)) l :=
            match l with
            | [] => @List.Forall_nil _ _
            | kv :: l' =>
                @List.Forall_cons _ _ kv l'
                  (value_ind P Hbool Hint Hstr Hstyle (snd kv)) (go l')
            end) items)
  end.

(** *** typeconv *)

(** What [typeconv] can be handed: an option value, a byte string, or
    [None]. *)
Inductive pyobj : Type :=
| OVal (v : value)
| OBytes (b : list byte)
| ONone.

(** [re_number = re.compile(r'-?[0-9]+$')], used with [match]: anchored
    at the start; [$] is the end of the text or the position before a
    newline that ends the text. *)
Fixpoint digits_to_end (seen : bool) (s : string) : bool :=
  match s with
  | EmptyString => seen
  | String c r =>
      if Py.is_digit c then digits_to_end true r
      else seen && Ascii.eqb c "010" && String.eqb r ""
  end.

Definition re_number_match (text : string) : bool :=
  match text with
  | String c r =>
      if Ascii.eqb c "-" then digits_to_end false r else digits_to_end false text
  | EmptyString => false
  end.

Section Interpreter.

(** The interpreter: Python 3 or Python 2, and which byte strings its
    UTF-8 decoder accepts.  Python 3 has [string_types = (str,)] and
    [binary_type = bytes]; Python 2 has [string_types = (basestring,)]
    and [binary_type = str]. *)
Variable PY3 : bool.
Variable utf8_valid : list byte → bool.

Definition is_string_type (obj : pyobj) : bool :=
  match obj with
  | OVal (VStr _) => true
  | OBytes _ => negb PY3
  | _ => false
  end.

Definition is_binary_type (obj : pyobj) : bool :=
  match obj with
  | OBytes _ => true
  | _ => false
  end.

(** [obj == 'true'] for a string object. *)
Definition eq_literal (obj : pyobj) (lit : string) : bool :=
  match obj with
  | OVal (VStr s) => String.eqb s lit
  | OBytes b => negb PY3 && bool_decide (b = list_byte_of_string lit)
  | _ => false
  end.

(** [unistr]: text as it is, bytes decoded as UTF-8; [None] stands
    for the exception that is raised otherwise. *)
Definition unistr (obj : pyobj) : option string :=
  match obj with
  | OVal (VStr s) => Some s
  | OBytes b => if utf8_valid b then Some (string_of_list_byte b) else None
  | _ => None
  end.

Definition typeconv (obj : pyobj) : option pyobj :=
  if negb (is_string_type obj) then Some obj
  else if eq_literal obj "true" then Some (OVal (VBool true))
  else if eq_literal obj "false" then Some (OVal (VBool false))
  else
    text ← unistr obj;
    if re_number_match text then
      n ← Py.int_of_string text; Some (OVal (VInt n))
    else if is_binary_type obj then
      text ← unistr obj; Some (OVal (VStr text))
    else Some obj.

End Interpreter.

(** [typeconv] on the values of a style, where it does not depend on
    the interpreter (lemma [typeconv_OVal] below). *)
Definition typeconv_val (v : value) : value :=
  match v with
  | VStr s =>
      if String.eqb s "true" then VBool true
      else if String.eqb s "false" then VBool false
      else if re_number_match s then
        match Py.int_of_string s with Some n => VInt n | None => v end
      else v
  | _ => v
  end.

(** [set_option(style, optionname, optionvalue)] *)
Definition set_option (s : style) (optionname : string) (optionvalue : value) : style :=
  od_set optionname (typeconv_val optionvalue) s.

End Style.

(** ** The search loop: attempts, acceptance, de-duplication *)

Module Search.
Import Style.

(** [FormatStyleAttempt = namedtuple(..., ['formatstyle', 'newoptions',
    'prevdist'])] *)
Record FormatStyleAttempt : Type := {
  formatstyle : style;
  newoptions : style;
  prevdist : list Z
}.

(** [distquality]: the distance without its last element, the attempt
    number ([distance[0:-1]]). *)
Definition distquality (distance : list Z) : list Z := removelast distance.

(** [CodeFormatter.attempt_acceptible] *)
Definition attempt_acceptible (roundnr : Z) (prevdist newdist : list Z) : bool :=
  if (3 <=? roundnr) && Py.tuple_gt newdist prevdist then false
  else if (3 <=? roundnr) && Py.tuple_ge newdist prevdist then false
  else true.

(** [UncrustifyFormatter.attempt_acceptible], the only override; it
    converts both distances with [tuple(...)] first. *)
Definition uncrustify_attempt_acceptible (roundnr : Z) (prevdist newdist : list Z)
  : bool :=
  if (3 <=? roundnr) && Py.tuple_gt newdist prevdist then false
  else if (3 <=? roundnr) && Py.tuple_ge newdist prevdist then false
  else true.

(** [collections.Counter]: a missing key counts as zero. *)
Definition counter_get (c : gmap string nat) (key : string) : nat :=
  default 0%nat (c !! key).

Definition counter_incr (c : gmap string nat) (key : string) : gmap string nat :=
  <[key := S (counter_get c key)]> c.

(** The acceptance test in the body of [find_best_style]:
    [if not formatter.attempt_acceptible(roundnr,
    distquality(attempt.prevdist), distquality(newdistance)):
    global_worse_options[normrepr(attempt.newoptions)] += 1] *)
Definition count_worse (roundnr : Z) (attempt : FormatStyleAttempt)
    (newdistance : list Z) (global_worse_options : gmap string nat)
  : gmap string nat :=
  if negb (attempt_acceptible roundnr (distquality (prevdist attempt))
             (distquality newdistance))
  then counter_incr global_worse_options (normrepr (newoptions attempt))
  else global_worse_options.

(** The de-duplication at the head of every round:
    [for attempt in derivations: attempt_sig = normrepr(attempt.formatstyle);
    if attempt_sig in previous_attempts: continue;
    previous_attempts.add(attempt_sig); attempts.append(attempt)].
    The state is the pair of [previous_attempts] and [attempts]. *)
Definition select_step (st : gset string * list FormatStyleAttempt)
    (attempt : FormatStyleAttempt) : gset string * list FormatStyleAttempt :=
  let attempt_sig := normrepr (formatstyle attempt) in
  if bool_decide (attempt_sig ∈ st.1) then st
  else ({[attempt_sig]} ∪ st.1, st.2 ++ [attempt]).

Definition select_attempts (derivations : list FormatStyleAttempt)
    (previous_attempts : gset string) : gset string * list FormatStyleAttempt :=
  fold_left select_step derivations (previous_attempts, []).

Section Loop.

(** The rest of a round is kept abstract: [LoopState] holds
    [evaluations], [global_worse_options], [invalid_cmdline_options],
    [finished_styles] and the counters; [gather_attempts] produces the
    derivations of a round from it; [evaluate] stands for formatting the
    selected attempts, diffing, pushing the results and
    [update_evaluations], and says whether the loop is left. *)
Variable LoopState : Type.
Variable gather_attempts : Z → LoopState → list FormatStyleAttempt.
Variable evaluate : Z → LoopState → list FormatStyleAttempt → LoopState * bool.

(** What the loop has done so far: the signatures in
    [previous_attempts] and, per round, the attempts handed to
    [format_with_styles]. *)
Record Trace : Type := {
  previous_attempts : gset string;
  submitted : list (list FormatStyleAttempt)
}.

(** [rounds] iterations of the [while True:] loop of [find_best_style],
    starting with [roundnr + 1]; it stops early at a [break]. *)
Fixpoint search_rounds (rounds : nat) (roundnr : Z) (st : LoopState) (tr : Trace)
  : LoopState * Trace :=
  match rounds with
  | O => (st, tr)
  | S rounds' =>
      let roundnr := roundnr + 1 in
      let derivations := gather_attempts roundnr st in
      let '(prev, attempts) := select_attempts derivations (previous_attempts tr) in
      let tr' := {| previous_attempts := prev;
                    submitted := submitted tr ++ [attempts] |} in
      let '(st', stop) := evaluate roundnr st attempts in
      if stop then (st', tr') else search_rounds rounds' roundnr st' tr'
  end.

(** [find_best_style] enters the loop with [roundnr = -1] and an empty
    [previous_attempts]. *)
Definition find_best_style_trace (rounds : nat) (st : LoopState) : Trace :=
  (search_rounds rounds (-1) st
     {| previous_attempts := ∅; submitted := [] |}).2.

End Loop.

End Search.

(** ** Subprocess results and their serialisation *)

Module Exe.

(** [bytestr(text)]: the UTF-8 encoding. *)
Definition bytestr (text : string) : list byte := list_byte_of_string text.

Definition len {A} (l : list A) : Z := Z.of_nat (length l).

(** [data[lo:hi]] with Python's treatment of negative and oversized
    bounds. *)
Definition slice_bound {A} (data : list A) (i : Z) : nat :=
  Z.to_nat (Z.min (len data) (if i <? 0 then Z.max 0 (i + len data) else i)).

Definition slice {A} (data : list A) (lo hi : Z) : list A :=
  take (slice_bound data hi - slice_bound data lo) (drop (slice_bound data lo) data).

(** [buf.find(b'|')], [None] standing for [-1]. *)
Fixpoint find (sep : byte) (buf : list byte) : option nat :=
  match buf with
  | [] => None
  | b :: rest => if bool_decide (b = sep) then Some O else S <$> find sep rest
  end.

(** [lengths.split()]: the maximal runs of bytes that are not ASCII
    whitespace. *)
Definition byte_is_space (b : byte) : bool := Py.is_space (ascii_of_byte b).

Fixpoint split_from (word : list byte) (data : list byte) : list (list byte) :=
  match data with
  | [] => match word with [] => [] | _ => [word] end
  | b :: rest =>
      if byte_is_space b then
        match word with
        | [] => split_from [] rest
        | _ => word :: split_from [] rest
        end
      else split_from (word ++ [b]) rest
  end.

Definition split (data : list byte) : list (list byte) := split_from [] data.

(** [pack_exeresult]; [stdoutdata or b''] turns [None] into the empty
    byte string. *)
Definition pack_exeresult (returncode : Z) (stdoutdata stderrdata : option (list byte))
  : list byte :=
  let stdoutdata := default [] stdoutdata in
  let stderrdata := default [] stderrdata in
  let buf := bytestr (Py.str_of_int returncode +:+ " " +:+
                      Py.str_of_int (len stdoutdata) +:+ " " +:+
                      Py.str_of_int (len stderrdata) +:+ "|") in
  buf ++ stdoutdata ++ stderrdata.

(** [try: numvalues = [int(s) for s in lengths.split()]
    except ValueError: numvalues = []] *)
Definition numvalues_of (lengths : list byte) : list Z :=
  default [] (mapM Py.int_of_bytes (split lengths)).

(** [unpack_exeresult]; [None] stands for the [ValueError] raised by
    [unpack_error]. *)
Definition unpack_exeresult (buf : list byte) : option (Z * list byte * list byte) :=
  match find "|"%byte buf with
  | None => None
  | Some pos =>
      let lengths := take pos buf in
      let data := drop (S pos) buf in
      match numvalues_of lengths with
      | [returncode; outlen; errlen] =>
          if negb (outlen + errlen =? len data) then None
          else Some (returncode, slice data 0 outlen, slice data outlen (outlen + errlen))
      | _ => None
      end
  end.

(** [ExeResult] and [make_exeresult]; the run time is a float and is
    kept abstract. *)
Record ExeResult {Seconds : Type} : Type := {
  returncode : Z;
  stdout : option (list byte);
  stderr : option (list byte);
  runtime : Seconds;
  timedout : bool;
  error : option string
}.
Arguments ExeResult : clear implicits.

End Exe.

(** ** The diff metric *)

Module Metric.

Definition byte_is_digit (b : byte) : bool := Py.is_digit (ascii_of_byte b).

(** [int(digits)] for a run of ASCII digits. *)
Definition digit_value (b : byte) : Z := Z.of_N (Byte.to_N b) - 48.

Definition int_of_digits (digits : list byte) : Z :=
  fold_left (fun n b => 10 * n + digit_value b) digits 0.

(** [re_hunk = re.compile(br'^@@ -(\d+)(?:,(\d+))? \+(\d+)(?:,(\d+))? @@',
    re.MULTILINE)].  Every digit run is followed by a byte that is no
    digit, and an optional group that is entered must be followed by a
    blank, so the leftmost-greedy reading below is the only way the
    pattern can match: backtracking never finds another. *)

(** A literal at the head of the data; the rest of the data. *)
Fixpoint match_literal (lit data : list byte) : option (list byte) :=
  match lit, data with
  | [], _ => Some data
  | c :: lit', b :: data' =>
      if bool_decide (b = c) then match_literal lit' data' else None
  | _ :: _, [] => None
  end.

(** [(\d+)]: the longest run of digits at the head, which must not be
    empty. *)
Fixpoint span_digits (data : list byte) : list byte * list byte :=
  match data with
  | b :: data' =>
      if byte_is_digit b then
        let '(digits, rest) := span_digits data' in (b :: digits, rest)
      else ([], data)
  | [] => ([], [])
  end.

Definition match_digits (data : list byte) : option (list byte * list byte) :=
  match span_digits data with
  | ([], _) => None
  | found => Some found
  end.

(** [(?:,(\d+))?] *)
Definition match_count (data : list byte) : option (list byte) * list byte :=
  match data with
  | b :: data' =>
      if bool_decide (b = ","%byte) then
        match match_digits data' with
        | Some (digits, rest) => (Some digits, rest)
        | None => (None, data)
        end
      else (None, data)
  | [] => (None, data)
  end.

(** The four groups of a match. *)
Definition groups : Type :=
  list byte * option (list byte) * list byte * option (list byte).

(** The pattern without its [^], tried at the head of the data. *)
Definition match_hunk (data : list byte) : option groups :=
  data ← match_literal (Exe.bytestr "@@ -") data;
  '(a, data) ← match_digits data;
  let '(b, data) := match_count data in
  data ← match_literal (Exe.bytestr " +") data;
  '(c, data) ← match_digits data;
  let '(d, data) := match_count data in
  _ ← match_literal (Exe.bytestr " @@") data;
  Some (a, b, c, d).

(** [re_hunk.finditer(diffoutput)].  With [re.MULTILINE], [^] holds at
    the start of the data and behind every newline.  A match holds no
    newline, so no position inside it or at its end is a line start, and
    walking on byte by byte finds the same matches as resuming behind a
    match does. *)
Fixpoint finditer (line_start : bool) (data : list byte) : list groups :=
  match data with
  | [] => []
  | b :: rest =>
      let later := finditer (bool_decide (b = "010"%byte)) rest in
      match (if line_start then match_hunk data else None) with
      | Some m => m :: later
      | None => later
      end
  end.

(** The counters of the loop in [metric_for_mindiff]. *)
Record counters : Type := {
  additions : Z;
  deletions : Z;
  hunkdiffs : Z;
  maxhunkdiff : Z
}.

(** One pass through the body of [for m in re_hunk.finditer(diffoutput)]. *)
Definition count_hunk (st : counters) (m : groups) : counters :=
  let '(_, dels, _, adds) := m in
  let numdels := match dels with None => 1 | Some dels => int_of_digits dels end in
  let numadds := match adds with None => 1 | Some adds => int_of_digits adds end in
  let hunkdiff := Z.abs (numadds - numdels) in
  {| additions := additions st + numadds;
     deletions := deletions st + numdels;
     maxhunkdiff := Z.max hunkdiff (maxhunkdiff st);
     hunkdiffs := hunkdiffs st + hunkdiff |}.

Definition metric_for_mindiff (diffoutput : list byte) (numlines : option Z) : Z :=
  match diffoutput with
  | [] => 0
  | _ =>
      let st := fold_left count_hunk (finditer true diffoutput)
                  {| additions := 0; deletions := 0; hunkdiffs := 0; maxhunkdiff := 0 |} in
      let per_file_overhead := 2 in
      let num_changes := per_file_overhead + additions st + deletions st + hunkdiffs st in
      match numlines with
      | Some numlines =>
          if numlines <=? num_changes then
            let numlines_to := numlines + additions st - deletions st in
            num_changes + Z.abs (numlines - numlines_to)
          else num_changes
      | None => num_changes
      end
  end.

End Metric.

(** ** Option definitions and the variants of clang-format options *)

Module Clang.
Import Style.

(** [a == b] on option values: a bool equals the integer 0 or 1 it
    stands for, text equals the same text, and two [OrderedDict]s are
    equal when they hold equal items in the same order. *)
Fixpoint value_eqb (a b : value) : bool :=
  match a, b with
  | VBool x, VBool y => Bool.eqb x y
  | VBool x, VInt n | VInt n, VBool x => Z.b2z x =? n
  | VInt n, VInt m => n =? m
  | VStr s, VStr t => String.eqb s t
  | VStyle items, VStyle items' =>
      (fix items_eqb (l l' : list (string * value)) : bool :=
         match l, l' with
         | [], [] => true
         | (k, v) :: r, (k', v') :: r' =>
             String.eqb k k' && value_eqb v v' && items_eqb r r'
         | _, _ => false
         end) items items'
  | _, _ => false
  end.

(** [style_make(options)] for a dict: the keys in sorted order, nested
    dicts made styles in turn, every value through [set_option].  As in
    [normrepr], the nested values are converted in place first and then
    visited in key order. *)
Definition style_from (converted : style) : style :=
  fold_left (fun s k =>
               match od_get k converted with
               | Some v => set_option s k v
               | None => s
               end)
            (Py.sorted (keys converted)) [].

Fixpoint style_make_value (v : value) : value :=
  match v with
  | VStyle items =>
      VStyle (style_from (map (fun kv => let '(k, w) := kv in (k, style_make_value w))
                              items))
  | _ => v
  end.

Definition style_make (options : style) : style :=
  match style_make_value (VStyle options) with
  | VStyle s => s
  | _ => []
  end.

(** [stylevariant(optionname, value)]:
    [style_make({optionname: typeconv(value)})] *)
Definition stylevariant (optionname : string) (v : value) : style :=
  style_make [(optionname, typeconv_val v)].

Definition stylevariants (optionname : string) (values : list value) : list style :=
  map (stylevariant optionname) values.

(** [inclusiverange(start, stop)] *)
Definition inclusiverange (start stop : Z) : list Z :=
  map (fun i => start + Z.of_nat i) (seq 0 (Z.to_nat (stop + 1 - start))).

(** [style.update(other)] *)
Definition update (s other : style) : style :=
  fold_left (fun s kv => od_set (fst kv) (snd kv) s) other s.

(** An option definition [(name, type, configs, nestedopts)]; a nested
    style definition is given by its options in order. *)
Unset Elimination Schemes.
Inductive option_def : Type :=
| Option (name type : string) (configs : list value)
         (nestedstyle : option (list option_def)).
Set Elimination Schemes.

Definition option_name (o : option_def) : string :=
  let '(Option name _ _ _) := o in name.
Definition option_type (o : option_def) : string :=
  let '(Option _ type _ _) := o in type.
Definition option_configs (o : option_def) : list value :=
  let '(Option _ _ configs _) := o in configs.

Definition LOWER_COLUMN_LIMIT : Z := 79.
Definition UPPER_COLUMN_LIMIT : Z := 120.

(** [column_limit_candidates]: 0 and the limits from 79 to 120, sorted. *)
Definition column_limit_candidates : list Z :=
  0 :: inclusiverange LOWER_COLUMN_LIMIT UPPER_COLUMN_LIMIT.

(** [ClangFormatter.additional_variants] *)
Definition additional_variants (stylename : string) (configs : list value)
    (unextendedname : value) (extendoptions : list style) : list style :=
  flat_map (fun c =>
              if value_eqb c unextendedname then [stylevariant stylename c]
              else map (fun addopt => update (stylevariant stylename c) addopt)
                       extendoptions)
           configs.

(** [ClangFormatter.variants_for] *)
Fixpoint variants_for (option : option_def) : list style :=
  let '(Option stylename styletype configs nestedstyle) := option in
  let kvpairs := stylevariants stylename in
  match nestedstyle with
  | Some nestedopts =>
      flat_map
        (fun nopt =>
           map (fun nstylevariant =>
                  let sty := stylevariant stylename (VStyle nstylevariant) in
                  if String.eqb stylename "BraceWrapping"
                  then set_option sty "BreakBeforeBraces" (VStr "Custom")
                  else sty)
               (variants_for nopt))
        nestedopts
  | None =>
      if String.eqb stylename "UseTab" then
        additional_variants stylename configs (VStr "Never")
          (map (fun i => stylevariant "TabWidth" (VInt i)) (inclusiverange 1 8))
      else if String.eqb stylename "BreakBeforeBraces" then
        List.filter (fun x => match od_get "BreakBeforeBraces" x with
                              | Some v => negb (value_eqb v (VStr "Custom"))
                              | None => true
                              end)
                    (kvpairs configs)
      else
        match configs with
        | _ :: _ =>
            if String.eqb stylename "PointerAlignment" then
              additional_variants "DerivePointerAlignment" [VBool false; VBool true]
                (VBool true) (stylevariants stylename configs)
            else kvpairs configs
        | [] =>
            if String.eqb styletype "bool" then
              if String.eqb stylename "DisableFormat" then kvpairs [VBool false]
              else if String.eqb stylename "DerivePointerAlignment" then []
              else kvpairs [VBool true; VBool false]
            else if String.eqb styletype "int" then []
            else if String.eqb styletype "unsigned" then
              if String.eqb stylename "ColumnLimit"
              then kvpairs (VInt <$> column_limit_candidates)
              else if String.eqb stylename "TabWidth"
              then kvpairs (VInt <$> inclusiverange 1 8)
              else if String.eqb stylename "IndentWidth"
              then kvpairs (VInt <$> inclusiverange 0 8)
              else if String.prefix "Penalty" stylename then []
              else kvpairs (VInt <$> inclusiverange 0 2)
            else []
        end
  end.

End Clang.

(** ** Running jobs: the pool, the cache and [run_executables] *)

Module Dispatch.
Import Exe.

Inductive ccmode : Type := CC_OFF | CC_THREADS | CC_PROCESSES.

#[global] Instance ccmode_eq_decision : EqDecision ccmode.
Proof. solve_decision. Defined.

(** [ExeCall = namedtuple('ExeCall', ['exe', 'cmdargs', 'stdindata',
    'depfiles'])] *)
Record ExeCall : Type := {
  exe : string;
  cmdargs : list string;
  stdindata : option (list byte);
  depfiles : list string
}.

(** The arguments [((ec.exe, ec.cmdargs), {'stdindata': ec.stdindata})]
    that [run_executables] packages for [call_popen]. *)
Definition CallArgs : Type := string * list string * option (list byte).

Definition args_of (ec : ExeCall) : CallArgs := (exe ec, cmdargs ec, stdindata ec).

(** *** The worker pool

    [pool.apply_async] hands out one result handle per job.  The
    workers fill the handles in an order of their own, given here as
    the schedule: the list of job numbers in the order in which the
    jobs finish.  A number that names no unfinished job is an event
    that changes nothing. *)
Section Pool.

Context {A R : Type}.
Variable func : A → R.

(** A worker finishes job [j] with arguments [a]. *)
Definition finish (jobs : list A) (j : nat) (handles : list (option R))
  : list (option R) :=
  match jobs !! j, handles !! j with
  | Some a, Some None => <[j := Some (func a)]> handles
  | _, _ => handles
  end.

(** [asyncres.get()] for the handle of job [i]: it returns once the
    job has finished, and meanwhile other jobs may finish.  When the
    schedule has nothing more to say the job finishes next. *)
Fixpoint async_get (jobs : list A) (i : nat) (a : A)
    (handles : list (option R)) (sched : list nat)
  : R * list (option R) * list nat :=
  match handles !! i with
  | Some (Some r) => (r, handles, sched)
  | _ =>
      match sched with
      | [] => (func a, <[i := Some (func a)]> handles, [])
      | j :: sched' => async_get jobs i a (finish jobs j handles) sched'
      end
  end.

(** [while async_results: asyncres = async_results.pop(0);
    yield asyncres.get()] *)
Fixpoint pool_yield (jobs : list A) (async_results : list (nat * A))
    (handles : list (option R)) (sched : list nat) : list R :=
  match async_results with
  | [] => []
  | (i, a) :: async_results' =>
      let '(r, handles', sched') := async_get jobs i a handles sched in
      r :: pool_yield jobs async_results' handles' sched'
  end.

(** Whether the [multiprocessing] module could be imported. *)
Variable multiprocessing : bool.

(** [iter_parallel_report] *)
Definition iter_parallel_report (args_lists : list A) (mode : ccmode)
    (sched : list nat) : list R :=
  if bool_decide (mode = CC_OFF) || (length args_lists <=? 1)%nat
     || negb multiprocessing
  then map func args_lists
  else pool_yield args_lists (imap (fun i a => (i, a)) args_lists)
                  (replicate (length args_lists) None) sched.

(** [iter_parallel]; the jobs raise no exception here, so that wrapping
    them in [tracebackwrapper] and unwrapping the results changes
    nothing. *)
Definition iter_parallel (args_lists : list A) (mode : ccmode) (sched : list nat)
  : list R :=
  match args_lists with
  | [] => []
  | _ => iter_parallel_report args_lists mode sched
  end.

End Pool.

(** *** The dispatcher *)
Section RunExecutables.

Context {Seconds : Type}.

(** [runtime=0.0], the default of [make_exeresult]. *)
Variable zero_seconds : Seconds.

(** [call_popen]: the run of one subprocess, taken as a function of
    its arguments. *)
Variable call_popen : CallArgs → ExeResult Seconds.

(** [execall_hash(ec, cache)], the cache key of a job. *)
Variable execall_hash : ExeCall → string.

Variable multiprocessing : bool.

(** [make_exeresult(returncode, stdout, stderr)] *)
Definition make_exeresult (returncode : Z) (stdout stderr : option (list byte))
  : ExeResult Seconds :=
  {| returncode := returncode; stdout := stdout; stderr := stderr;
     runtime := zero_seconds; timedout := false; error := None |}.

(** [c2exeresult]; [None] when [unpack_exeresult] raises. *)
Definition c2exeresult (value : list byte) : option (ExeResult Seconds) :=
  '(returncode, stdout, stderr) ← unpack_exeresult value;
  Some (make_exeresult returncode (Some stdout) (Some stderr)).

Definition exeresult2c (exeresult : ExeResult Seconds) : list byte :=
  pack_exeresult (returncode exeresult) (stdout exeresult) (stderr exeresult).

(** The loop over [enumerate(izip(args_lists, qkeys, qresults))]: the
    cached results with their indices, and the keys, arguments and
    indices of the jobs that have to run. *)
Fixpoint split_cached (idx : nat)
    (items : list (CallArgs * string * option (list byte)))
  : option (list (nat * ExeResult Seconds) * list string * list CallArgs * list nat) :=
  match items with
  | [] => Some ([], [], [], [])
  | (arg, key, cvalue) :: items' =>
      match cvalue with
      | Some cvalue =>
          r ← c2exeresult cvalue;
          '(cachedresults, keys, jobs, jobindices) ← split_cached (S idx) items';
          Some ((idx, r) :: cachedresults, keys, jobs, jobindices)
      | None =>
          '(cachedresults, keys, jobs, jobindices) ← split_cached (S idx) items';
          Some (cachedresults, key :: keys, arg :: jobs, idx :: jobindices)
      end
  end.

(** [heapq.merge] of two iterables of [(idx, result)] pairs, each
    sorted by index; the indices decide, the first iterable winning a
    tie. *)
Fixpoint merge (xs : list (nat * ExeResult Seconds))
  : list (nat * ExeResult Seconds) → list (nat * ExeResult Seconds) :=
  fix merge_into (ys : list (nat * ExeResult Seconds)) :=
    match xs, ys with
    | [], _ => ys
    | _, [] => xs
    | x :: xs', y :: ys' =>
        if (x.1 <=? y.1)%nat then x :: merge xs' ys else y :: merge_into ys'
    end.

(** [run_executables].  The cache is a finite map from keys to packed
    results; [cache.mget] looks every key up.  The outcome is the list
    of yielded results and the cache after the misses are written
    back, or [None] when a cached value does not unpack. *)
Definition run_executables (execalls : list ExeCall)
    (cache : option (gmap string (list byte))) (mode : ccmode) (sched : list nat)
  : option (list (ExeResult Seconds) * option (gmap string (list byte))) :=
  let args_lists := args_of <$> execalls in
  '(cachedresults, keys, jobs, jobindices) ←
    match cache with
    | Some c =>
        let qkeys := execall_hash <$> execalls in
        let qresults := (fun k => c !! k) <$> qkeys in
        split_cached 0 (zip (zip args_lists qkeys) qresults)
    | None => Some ([], [], args_lists, seq 0 (length args_lists))
    end;
  let jobiter := iter_parallel call_popen multiprocessing jobs mode sched in
  let jobresults := zip jobindices jobiter in
  let cache' :=
    (fun c => fold_left (fun c kr => <[kr.1 := exeresult2c kr.2]> c)
                        (zip keys jobiter) c) <$> cache in
  Some ((fun ir => ir.2) <$> merge cachedresults jobresults, cache').

End RunExecutables.

End Dispatch.

(** ** Styles as Python holds them: dict objects in a store *)

Module Heap.
Import Style.

(** The identity of a dict object. *)
Definition loc : Type := positive.

(** Booleans, integers and text are immutable; a nested style is a
    reference to a dict object, which can be shared and written to. *)
Inductive hvalue : Type :=
| HBool (b : bool)
| HInt (n : Z)
| HStr (s : string)
| HRef (l : loc).

(** An [OrderedDict] object, and the store of all of them. *)
Abbreviation object := (list (string * hvalue)).
Abbreviation heap := (gmap loc object).

Inductive error : Type := TypeError | KeyError | Dangling | OutOfFuel.

(** What a call leaves behind: a result or a raised exception, and the
    store in the state the call left it in. *)
Inductive outcome (A : Type) : Type :=
| Ok (a : A) (h : heap)
| Raise (e : error) (h : heap).
Arguments Ok {A} a h.
Arguments Raise {A} e h.

Definition bind {A B} (m : outcome A) (f : A → heap → outcome B) : outcome B :=
  match m with
  | Ok a h => f a h
  | Raise e h => Raise e h
  end.

(** [for x in l: s = body(s, x)], leaving at the first exception. *)
Fixpoint for_each {A S} (body : S → A → heap → outcome S) (l : list A) (s : S)
    (h : heap) : outcome S :=
  match l with
  | [] => Ok s h
  | x :: l' => bind (body s x h) (for_each body l')
  end.

(** [d[key]] *)
Definition getitem (d : hvalue) (key : string) (h : heap) : outcome hvalue :=
  match d with
  | HRef l =>
      match h !! l with
      | Some items =>
          match od_get key items with
          | Some v => Ok v h
          | None => Raise KeyError h
          end
      | None => Raise Dangling h
      end
  | _ => Raise TypeError h
  end.

(** [d[key] = v]; a bool, an integer or a text has no item assignment. *)
Definition setitem (d : hvalue) (key : string) (v : hvalue) (h : heap)
  : outcome unit :=
  match d with
  | HRef l =>
      match h !! l with
      | Some items => Ok tt (<[l := od_set key v items]> h)
      | None => Raise Dangling h
      end
  | _ => Raise TypeError h
  end.

(** *** copy.deepcopy

    The copy of a dict is a new dict, entered into the memo before its
    items are copied; a dict that is met again is not copied again, so
    that sharing inside the argument is kept.  Immutable values are
    copied as themselves. *)
Definition copy_item (deepcopy : loc → gmap loc loc → heap → outcome (loc * gmap loc loc))
    (y : loc) (memo : gmap loc loc) (kv : string * hvalue) (h : heap)
  : outcome (gmap loc loc) :=
  let '(key, value) := kv in
  match value with
  | HRef x =>
      bind (deepcopy x memo h) (fun '(x', memo) h =>
      bind (setitem (HRef y) key (HRef x') h) (fun _ h => Ok memo h))
  | _ => bind (setitem (HRef y) key value h) (fun _ h => Ok memo h)
  end.

Fixpoint deepcopy (fuel : nat) (x : loc) (memo : gmap loc loc) (h : heap)
  : outcome (loc * gmap loc loc) :=
  match fuel with
  | O => Raise OutOfFuel h
  | S fuel =>
      match memo !! x with
      | Some y => Ok (y, memo) h
      | None =>
          match h !! x with
          | None => Raise Dangling h
          | Some items =>
              let y := fresh (dom h) in
              bind (for_each (copy_item (deepcopy fuel) y) items (<[x := y]> memo)
                             (<[y := []]> h))
                   (fun memo h => Ok (y, memo) h)
          end
      end
  end.

(** [Style(d)]: a new dict with the items of [d]. *)
Definition new_style (d : loc) (h : heap) : outcome loc :=
  match h !! d with
  | Some items => let z := fresh (dom h) in Ok z (<[z := items]> h)
  | None => Raise Dangling h
  end.

(** *** deep_update and copy_with_optgroup *)

(** One pass through the body of [for optionname, value in
    optiongroup.items()].  The [try] covers the lookup and the
    recursive call, and only a [KeyError] is caught. *)
Definition update_item (deep_update : hvalue → loc → heap → outcome hvalue)
    (parentstyle : hvalue) (_ : unit) (kv : string * hvalue) (h : heap)
  : outcome unit :=
  let '(optionname, value) := kv in
  match value with
  | HRef group =>
      match bind (getitem parentstyle optionname h)
                 (fun parent_suboptions h => deep_update parent_suboptions group h) with
      | Ok _ h => Ok tt h
      | Raise KeyError h => setitem parentstyle optionname value h
      | Raise e h => Raise e h
      end
  | _ => setitem parentstyle optionname value h
  end.

(** The items of the option group are read when the loop starts; the
    loop does not write to the dict it walks. *)
Fixpoint deep_update (fuel : nat) (parentstyle : hvalue) (optiongroup : loc)
    (h : heap) : outcome hvalue :=
  match fuel with
  | O => Raise OutOfFuel h
  | S fuel =>
      match h !! optiongroup with
      | None => Raise Dangling h
      | Some items =>
          bind (for_each (update_item (deep_update fuel) parentstyle) items tt h)
               (fun _ h => Ok parentstyle h)
      end
  end.

(** [deep_update(Style(copy.deepcopy(style)), optgroup)] *)
Definition copy_with_optgroup (fuel : nat) (style optgroup : loc) (h : heap)
  : outcome hvalue :=
  bind (deepcopy fuel style ∅ h) (fun '(copy, _) h =>
  bind (new_style copy h) (fun fresh_style h =>
  deep_update fuel (HRef fresh_style) optgroup h)).

End Heap.

(** ** The secondary metric: average line lengths *)

Module Linelength.
Import Exe.

(** A Python [float] is an IEEE-754 binary64 number: 53 bits of
    precision, exponents below 1024, operations rounded to nearest with
    ties to even. *)
Definition prec : Z := 53.
Definition emax : Z := 1024.

(** [float(n)] for an integer; an integer beyond the range of the
    doubles raises [OverflowError] and comes out as an infinity here. *)
Definition float_of_int (n : Z) : spec_float := binary_normalize prec emax n 0 false.

(** The literals [0.0] and [10000.0]. *)
Definition float_zero : spec_float := S754_zero false.
Definition float_10000 : spec_float := S754_finite false 5497558138880000 (-39).

(** [int(x)] for a float: the integer part, towards zero; [None] stands
    for the exception raised for an infinity or a NaN. *)
Definition int_of_float (x : spec_float) : option Z :=
  match x with
  | S754_zero _ => Some 0
  | S754_finite s m e =>
      Some (cond_Zopp s (if 0 <=? e then Zpos m * 2 ^ e else Zpos m / 2 ^ (- e)))
  | _ => None
  end.

(** [data.splitlines()] for a byte string: a line ends at a line feed,
    at a carriage return or at a carriage return followed by a line
    feed; what follows the last line end is a line when it is not
    empty. *)
Fixpoint splitlines_from (line : list byte) (data : list byte) : list (list byte) :=
  match data with
  | [] => match line with [] => [] | _ => [line] end
  | b :: rest =>
      if bool_decide (b = "010"%byte) then line :: splitlines_from [] rest
      else if bool_decide (b = "013"%byte) then
        match rest with
        | b' :: rest' =>
            if bool_decide (b' = "010"%byte) then line :: splitlines_from [] rest'
            else line :: splitlines_from [] rest
        | [] => line :: splitlines_from [] rest
        end
      else splitlines_from (line ++ [b]) rest
  end.

Definition splitlines (data : list byte) : list (list byte) := splitlines_from [] data.

(** [count_content_lines] *)
Definition count_content_lines (data : list byte) : Z := len (splitlines data).

(** [avg1 = 0.0; if linelen1 > 0: avg1 = float(filelen1) / linelen1];
    the division converts the line count to a float. *)
Definition avg_linelength (filelen linelen : Z) : spec_float :=
  if 0 <? linelen then SFdiv prec emax (float_of_int filelen) (float_of_int linelen)
  else float_zero.

(** The value yielded for one pair:
    [int(abs(10000.0 * (avg1 - avg2)))]. *)
Definition avg_linelength_diff (content1 content2 : list byte) : option Z :=
  let avg1 := avg_linelength (len content1) (count_content_lines content1) in
  let avg2 := avg_linelength (len content2) (count_content_lines content2) in
  int_of_float (SFabs (SFmul prec emax float_10000 (SFsub prec emax avg1 avg2))).

Section Files.

(** [get_cached_file]: the content of the file of a given name. *)
Variable get_cached_file : string → list byte.

(** [avg_linelength_diffs]; the line count of the file is the line
    count of its content. *)
Definition avg_linelength_diffs (diffargs : list (string * list byte)) : list (option Z) :=
  map (fun '(filename1, content2) =>
         avg_linelength_diff (get_cached_file filename1) content2) diffargs.

End Files.

End Linelength.

(** * Properties *)

(** ** The search loop *)

Module SearchFacts.
Import Style Search.

(** Strictly smaller, for distances: lexicographic order. *)
Inductive lex_lt : list Z → list Z → Prop :=
| lex_lt_nil y b : lex_lt [] (y :: b)
| lex_lt_head x y a b : x < y → lex_lt (x :: a) (y :: b)
| lex_lt_tail x a b : lex_lt a b → lex_lt (x :: a) (x :: b).

Lemma tuple_compare_lt a b : Py.tuple_compare a b = Lt ↔ lex_lt a b.
Proof.
  revert b; induction a as [|x a IH]; intros [|y b]; simpl.
  - split; [discriminate | inversion 1].
  - split; [constructor | reflexivity].
  - split; [discriminate | inversion 1].
  - destruct (Z.compare_spec x y) as [->|Hlt|Hgt].
    + rewrite IH. split; [apply lex_lt_tail | inversion 1; subst; [lia | assumption]].
    + split; [intros _; by constructor | reflexivity].
    + split; [discriminate | inversion 1; subst; [lia | lia]].
Qed.

Lemma tuple_lt_iff a b : Py.tuple_lt a b = true ↔ lex_lt a b.
Proof.
  rewrite <- tuple_compare_lt. unfold Py.tuple_lt.
  destruct (Py.tuple_compare a b); split; congruence.
Qed.

Lemma attempt_acceptible_eq roundnr prev new :
  attempt_acceptible roundnr prev new =
  if roundnr <? 3 then true else Py.tuple_lt new prev.
Proof.
  unfold attempt_acceptible, Py.tuple_gt, Py.tuple_ge, Py.tuple_lt.
  destruct (Z.leb_spec 3 roundnr), (Z.ltb_spec roundnr 3); try lia; simpl;
    destruct (Py.tuple_compare new prev); reflexivity.
Qed.

Lemma counter_get_incr c k k' :
  counter_get (counter_incr c k) k' =
  if decide (k = k') then S (counter_get c k) else counter_get c k'.
Proof.
  unfold counter_incr, counter_get at 1. rewrite lookup_insert.
  destruct (decide (k = k')); reflexivity.
Qed.

(** Claim C5.  [attempt_acceptible] accepts every attempt while the round
    number is at most 2; from round 3 on it accepts exactly the attempts
    whose new distance, without the attempt number, is strictly smaller
    than the parent's.  In the loop a rejected attempt adds one to the
    worse-count of its option group, an accepted one changes no count,
    and no other group's count is touched. *)
Theorem acceptance_policy (roundnr : Z) (attempt : FormatStyleAttempt)
    (newdistance : list Z) (worse : gmap string nat) :
  let prev := distquality (prevdist attempt) in
  let new := distquality newdistance in
  let group := normrepr (newoptions attempt) in
  let worse' := count_worse roundnr attempt newdistance worse in
  (roundnr ≤ 2 → attempt_acceptible roundnr prev new = true) ∧
  (3 ≤ roundnr → (attempt_acceptible roundnr prev new = true ↔ lex_lt new prev)) ∧
  (attempt_acceptible roundnr prev new = false →
     counter_get worse' group = S (counter_get worse group)) ∧
  (attempt_acceptible roundnr prev new = true → worse' = worse) ∧
  (∀ other, other ≠ group → counter_get worse' other = counter_get worse other).
Proof.
  intros prev new group worse'. subst worse'. unfold count_worse.
  fold prev new group. rewrite attempt_acceptible_eq.
  repeat split.
  - intros H. destruct (Z.ltb_spec roundnr 3); [reflexivity | lia].
  - destruct (Z.ltb_spec roundnr 3); [lia |]. by apply tuple_lt_iff.
  - destruct (Z.ltb_spec roundnr 3); [lia |]. by apply tuple_lt_iff.
  - intros ->. simpl. rewrite counter_get_incr. by rewrite decide_True.
  - intros ->. reflexivity.
  - intros other Hne.
    destruct (if roundnr <? 3 then true else Py.tuple_lt new prev); simpl; [done |].
    rewrite counter_get_incr. by rewrite decide_False.
Qed.

Definition signature (a : FormatStyleAttempt) : string := normrepr (formatstyle a).

(** What one pass of the de-duplication keeps true: the attempts
    submitted so far have pairwise different signatures, all of them
    recorded in [previous_attempts]. *)
Definition distinct_and_recorded (prev : gset string) (done : list FormatStyleAttempt)
  : Prop :=
  NoDup (signature <$> done) ∧ ∀ a, a ∈ done → signature a ∈ prev.

Lemma select_step_inv base st a :
  distinct_and_recorded st.1 (base ++ st.2) →
  distinct_and_recorded (select_step st a).1 (base ++ (select_step st a).2).
Proof.
  intros [Hnd Hrec]. unfold select_step. fold (signature a).
  case_bool_decide as Hin; [by split |]. simpl. split.
  - rewrite app_assoc, fmap_app. simpl. apply NoDup_app. split_and!.
    + done.
    + intros s Hs Hs'%list_elem_of_singleton. subst s. apply Hin.
      apply list_elem_of_fmap in Hs as (b & -> & Hb). by apply Hrec.
    + apply NoDup_singleton.
  - intros b. rewrite app_assoc, elem_of_app, list_elem_of_singleton.
    intros [Hb | ->]; [apply elem_of_union_r; by apply Hrec | set_solver].
Qed.

Lemma select_step_grows st a : st.1 ⊆ (select_step st a).1.
Proof. unfold select_step. case_bool_decide; simpl; set_solver. Qed.

Lemma fold_select_inv base derivations st :
  distinct_and_recorded st.1 (base ++ st.2) →
  distinct_and_recorded (fold_left select_step derivations st).1
    (base ++ (fold_left select_step derivations st).2).
Proof.
  revert st. induction derivations as [|a l IH]; intros st H; simpl; [done |].
  apply IH. by apply select_step_inv.
Qed.

Lemma fold_select_skips derivations st a :
  signature a ∈ st.1 → a ∉ st.2 →
  a ∉ (fold_left select_step derivations st).2.
Proof.
  revert st. induction derivations as [|b l IH]; intros st Hin Hout; simpl; [done |].
  apply IH.
  - by apply select_step_grows.
  - unfold select_step. fold (signature b). case_bool_decide as Hb; simpl; [done |].
    rewrite elem_of_app, list_elem_of_singleton. intros [? | ->]; [done | by apply Hb].
Qed.

Section Loop.
Context {LoopState : Type}.
Variable gather_attempts : Z → LoopState → list FormatStyleAttempt.
Variable evaluate : Z → LoopState → list FormatStyleAttempt → LoopState * bool.

Lemma search_rounds_inv rounds roundnr st tr :
  distinct_and_recorded (previous_attempts tr) (concat (submitted tr)) →
  let tr' := (search_rounds LoopState gather_attempts evaluate rounds roundnr st tr).2 in
  distinct_and_recorded (previous_attempts tr') (concat (submitted tr')).
Proof.
  revert roundnr st tr. induction rounds as [|n IH]; intros roundnr st tr H; simpl; [done |].
  pose proof (fold_select_inv (concat (submitted tr))
                (gather_attempts (roundnr + 1) st) (previous_attempts tr, [])) as Hsel.
  unfold select_attempts.
  destruct (fold_left select_step _ _) as [prev attempts] eqn:Esel. simpl in Hsel.
  rewrite app_nil_r in Hsel. specialize (Hsel H).
  destruct (evaluate _ _ _) as [st' stop].
  assert (distinct_and_recorded prev (concat (submitted tr ++ [attempts]))) as H'.
  { by rewrite concat_app; simpl; rewrite app_nil_r. }
  destruct stop; [done |]. by apply IH.
Qed.

End Loop.

(** Claim C3.  After any number of rounds of one run of the search
    loop, the attempts handed to the formatter have pairwise different
    normalized signatures, each of them is recorded in
    [previous_attempts], and a derivation whose signature is already
    recorded is never selected. *)
Theorem no_duplicate_evaluation {LoopState : Type}
    (gather_attempts : Z → LoopState → list FormatStyleAttempt)
    (evaluate : Z → LoopState → list FormatStyleAttempt → LoopState * bool)
    (rounds : nat) (st : LoopState) :
  let tr := find_best_style_trace LoopState gather_attempts evaluate rounds st in
  NoDup (signature <$> concat (submitted tr)) ∧
  (∀ a, a ∈ concat (submitted tr) → signature a ∈ previous_attempts tr) ∧
  (∀ derivations prev a,
     signature a ∈ prev → a ∉ (select_attempts derivations prev).2).
Proof.
  intros tr. split_and!.
  - apply (search_rounds_inv gather_attempts evaluate rounds (-1) st).
    split; [constructor | intros a Ha; by apply elem_of_nil in Ha].
  - apply (search_rounds_inv gather_attempts evaluate rounds (-1) st).
    split; [constructor | intros a Ha; by apply elem_of_nil in Ha].
  - intros derivations prev a Hin. apply fold_select_skips; [done | apply not_elem_of_nil].
Qed.

End SearchFacts.

(** ** Numbers as text *)

Module PyFacts.
Import Style.

(** The texts that look like a number: an optional minus sign, one or
    more decimal digits and, as [$] allows, an optional final newline. *)
Definition number_text (neg : bool) (ds : Decimal.uint) (nl : bool) : string :=
  (if neg then "-" else "") +:+ NilEmpty.string_of_uint ds +:+
  (if nl then String "010" "" else "").

Definition number_value (neg : bool) (ds : Decimal.uint) : Z :=
  if neg then - Z.of_uint ds else Z.of_uint ds.

Lemma append_cons c s t : String c s +:+ t = String c (s +:+ t).
Proof. reflexivity. Qed.

Lemma append_nil t : "" +:+ t = t.
Proof. reflexivity. Qed.

Lemma append_nil_r s : s +:+ "" = s.
Proof. induction s as [|c s IH]; [done |]. by rewrite append_cons, IH. Qed.

Lemma is_digit_spec c :
  Py.is_digit c = true ↔ ∃ d, NilEmpty.string_of_uint d = String c "" .
Proof.
  split.
  - unfold Py.is_digit. simpl. rewrite !orb_true_iff.
    intros H. repeat destruct H as [H|H]; try discriminate;
      apply Ascii.eqb_eq in H; subst c.
    + by exists (Decimal.D0 Decimal.Nil).
    + by exists (Decimal.D1 Decimal.Nil).
    + by exists (Decimal.D2 Decimal.Nil).
    + by exists (Decimal.D3 Decimal.Nil).
    + by exists (Decimal.D4 Decimal.Nil).
    + by exists (Decimal.D5 Decimal.Nil).
    + by exists (Decimal.D6 Decimal.Nil).
    + by exists (Decimal.D7 Decimal.Nil).
    + by exists (Decimal.D8 Decimal.Nil).
    + by exists (Decimal.D9 Decimal.Nil).
  - intros [d Hd]. destruct d; simpl in Hd; try discriminate;
      injection Hd as <- _; reflexivity.
Qed.

(** A digit in front of a rendered number is a rendered number. *)
Lemma digit_cons c d :
  Py.is_digit c = true →
  ∃ d', d' ≠ Decimal.Nil ∧ NilEmpty.string_of_uint d' = String c (NilEmpty.string_of_uint d).
Proof.
  intros [d0 H0]%is_digit_spec.
  destruct d0; simpl in H0; try discriminate; injection H0 as <- _.
  - by exists (Decimal.D0 d).
  - by exists (Decimal.D1 d).
  - by exists (Decimal.D2 d).
  - by exists (Decimal.D3 d).
  - by exists (Decimal.D4 d).
  - by exists (Decimal.D5 d).
  - by exists (Decimal.D6 d).
  - by exists (Decimal.D7 d).
  - by exists (Decimal.D8 d).
  - by exists (Decimal.D9 d).
Qed.

Lemma string_of_uint_head d :
  d ≠ Decimal.Nil →
  ∃ c r, NilEmpty.string_of_uint d = String c r ∧ Py.is_digit c = true.
Proof. destruct d; [done | ..]; intros _; simpl; eauto. Qed.

Lemma digits_to_end_render seen d (nl : bool) :
  (seen = true ∨ d ≠ Decimal.Nil) →
  digits_to_end seen (NilEmpty.string_of_uint d +:+ (if nl then String "010" "" else ""))
  = true.
Proof.
  revert seen. induction d; intros seen Hs; simpl;
    try (apply IHd; by left).
  destruct Hs as [-> | ?]; [| done]. by destruct nl.
Qed.

Lemma digits_to_end_inv seen s :
  digits_to_end seen s = true →
  ∃ d (nl : bool), s = NilEmpty.string_of_uint d +:+ (if nl then String "010" "" else "")
                   ∧ (seen = true ∨ d ≠ Decimal.Nil).
Proof.
  revert seen. induction s as [|c r IH]; intros seen; simpl.
  - intros ->. exists Decimal.Nil, false. auto.
  - destruct (Py.is_digit c) eqn:Hc.
    + intros (d & nl & -> & _)%IH.
      destruct (digit_cons c d Hc) as (d' & Hne & Hd').
      exists d', nl. split; [| by right]. by rewrite Hd'.
    + rewrite !andb_true_iff. intros [[-> ->%Ascii.eqb_eq] ->%String.eqb_eq].
      exists Decimal.Nil, true. auto.
Qed.

Lemma re_number_match_render neg d nl :
  d ≠ Decimal.Nil → re_number_match (number_text neg d nl) = true.
Proof.
  intros Hd. unfold re_number_match, number_text.
  destruct neg; rewrite ?append_cons, append_nil.
  - rewrite Ascii.eqb_refl. apply digits_to_end_render. by right.
  - destruct (string_of_uint_head d Hd) as (c & r & E & Hc).
    pose proof (digits_to_end_render false d nl (or_intror Hd)) as H.
    rewrite E in *. rewrite append_cons in *.
    destruct (Ascii.eqb_spec c "-") as [-> | _]; done.
Qed.

Lemma re_number_match_inv s :
  re_number_match s = true →
  ∃ neg d nl, d ≠ Decimal.Nil ∧ s = number_text neg d nl.
Proof.
  unfold re_number_match. destruct s as [|c r]; [done |].
  destruct (Ascii.eqb_spec c "-") as [-> | Hc].
  - intros (d & nl & -> & [? | Hd])%digits_to_end_inv; [done |].
    by exists true, d, nl.
  - intros (d & nl & -> & [? | Hd])%digits_to_end_inv; [done |].
    by exists false, d, nl.
Qed.

Lemma rstrip_render d (nl : bool) :
  Py.rstrip (NilEmpty.string_of_uint d +:+ (if nl then String "010" "" else ""))
  = NilEmpty.string_of_uint d.
Proof.
  induction d; simpl; [by destruct nl | ..];
    rewrite IHd; by destruct (NilEmpty.string_of_uint d).
Qed.

Lemma digits_value_render d :
  d ≠ Decimal.Nil → Py.digits_value (NilEmpty.string_of_uint d) = Some (Z.of_uint d).
Proof.
  intros Hd. unfold Py.digits_value.
  destruct (string_of_uint_head d Hd) as (c & r & E & _).
  rewrite E, <- E, NilEmpty.usu. reflexivity.
Qed.

Lemma int_of_string_render neg d nl :
  d ≠ Decimal.Nil →
  Py.int_of_string (number_text neg d nl) = Some (number_value neg d).
Proof.
  intros Hd. unfold Py.int_of_string, number_text, number_value.
  destruct (string_of_uint_head d Hd) as (c & r & E & Hc).
  pose proof (digits_value_render d Hd) as Hv.
  destruct neg; rewrite ?append_cons, append_nil.
  - change (Py.rstrip (String "-" ?s)) with
      (match Py.rstrip s with
       | EmptyString => String "-" EmptyString
       | String c' r' => String "-" (String c' r')
       end).
    rewrite rstrip_render, E. rewrite E in Hv. cbn -[Py.digits_value]. by rewrite Hv.
  - rewrite rstrip_render, E. rewrite E in Hv.
    assert (Py.is_space c = false) as Hsp
      by (destruct c as [[] [] [] [] [] [] [] []]; done).
    cbn [Py.lstrip]. rewrite Hsp.
    destruct (Ascii.eqb_spec c "-") as [-> | _]; [done |].
    destruct (Ascii.eqb_spec c "+") as [-> | _]; done.
Qed.

(** [str(n)] is the minus sign, if any, and the digits of [n]. *)
Lemma str_of_int_number z :
  ∃ neg d, d ≠ Decimal.Nil ∧ Py.str_of_int z = number_text neg d false
           ∧ number_value neg d = z.
Proof.
  pose proof (DecimalZ.of_to z) as Hz. unfold Py.str_of_int, number_text.
  destruct z as [|p|p]; simpl in *.
  - by exists false, (Decimal.D0 Decimal.Nil).
  - exists false, (Pos.to_uint p). pose proof (Unsigned.to_uint_nonnil p) as Hp.
    split_and!; [done | | done].
    rewrite append_nil, append_nil_r. by destruct (Pos.to_uint p).
  - exists true, (Pos.to_uint p). pose proof (Unsigned.to_uint_nonnil p) as Hp.
    split_and!; [done | | done].
    rewrite append_cons, append_nil, append_nil_r. by destruct (Pos.to_uint p).
Qed.

Lemma int_of_string_str z : Py.int_of_string (Py.str_of_int z) = Some z.
Proof.
  destruct (str_of_int_number z) as (neg & d & Hd & -> & <-).
  by apply int_of_string_render.
Qed.

End PyFacts.

(** ** typeconv *)

Module TypeconvFacts.
Import Style PyFacts.

(** On the values of a style [typeconv] is [typeconv_val], whatever the
    interpreter. *)
Lemma typeconv_OVal PY3 utf8_valid v :
  typeconv PY3 utf8_valid (OVal v) = Some (OVal (typeconv_val v)).
Proof.
  destruct v as [b | n | s | items]; try reflexivity.
  unfold typeconv, typeconv_val. simpl.
  destruct (String.eqb s "true"); [done |].
  destruct (String.eqb s "false"); [done |].
  destruct (re_number_match s) eqn:Hm; [| done].
  apply re_number_match_inv in Hm as (neg & d & nl & Hd & ->).
  by rewrite int_of_string_render.
Qed.

Lemma number_text_not_literal neg d nl (lit : string) :
  d ≠ Decimal.Nil → lit = "true" ∨ lit = "false" → number_text neg d nl ≠ lit.
Proof.
  intros Hd Hlit E.
  assert (re_number_match lit = true) as H by (rewrite <- E; by apply re_number_match_render).
  by destruct Hlit as [-> | ->].
Qed.

Definition text (s : string) : pyobj := OVal (VStr s).

(** The cases of [typeconv], as the code has them.  Whatever the
    interpreter, [typeconv] maps the texts [true] and [false] to the
    booleans; maps every text made of an optional minus sign, one or
    more decimal digits and an optional final newline to the integer it
    denotes; returns every other text and everything that is not a
    string unchanged.  Under Python 2 a byte string that decodes as
    UTF-8 is converted like the text it decodes to, so that any other
    byte string becomes a text string. *)
Lemma typeconv_cases (PY3 : bool) (utf8_valid : list byte → bool) :
  let typeconv := typeconv PY3 utf8_valid in
  typeconv (text "true") = Some (OVal (VBool true)) ∧
  typeconv (text "false") = Some (OVal (VBool false)) ∧
  (∀ neg d nl, d ≠ Decimal.Nil →
     typeconv (text (number_text neg d nl)) = Some (OVal (VInt (number_value neg d)))) ∧
  (∀ s, s ≠ "true" → s ≠ "false" →
     (∀ neg d nl, d ≠ Decimal.Nil → s ≠ number_text neg d nl) →
     typeconv (text s) = Some (text s)) ∧
  (∀ obj, (∀ s, obj ≠ text s) → (∀ b, obj ≠ OBytes b) → typeconv obj = Some obj) ∧
  (PY3 = false → ∀ b, utf8_valid b = true →
     typeconv (OBytes b) = typeconv (text (string_of_list_byte b)) ∧
     ∀ s, typeconv (OBytes b) = Some (text s) → s = string_of_list_byte b).
Proof.
  intros tc. subst tc. split_and!.
  - reflexivity.
  - reflexivity.
  - intros neg d nl Hd. unfold text. rewrite typeconv_OVal. unfold typeconv_val.
    rewrite (proj2 (String.eqb_neq _ _)) by (apply number_text_not_literal; auto).
    rewrite (proj2 (String.eqb_neq _ _)) by (apply number_text_not_literal; auto).
    by rewrite re_number_match_render, int_of_string_render.
  - intros s Ht Hf Hn. unfold text. rewrite typeconv_OVal. unfold typeconv_val.
    rewrite (proj2 (String.eqb_neq _ _)) by done.
    rewrite (proj2 (String.eqb_neq _ _)) by done.
    destruct (re_number_match s) eqn:Hm; [| done].
    apply re_number_match_inv in Hm as (neg & d & nl & Hd & ->).
    by destruct (Hn neg d nl Hd).
  - intros obj Hs Hb. destruct obj as [[] | b |]; try reflexivity.
    + by destruct (Hs s).
    + by destruct (Hb b).
  - intros -> b Hb.
    assert (∀ lit, bool_decide (b = list_byte_of_string lit)
                   = String.eqb (string_of_list_byte b) lit) as Hlit.
    { intros lit. case_bool_decide as E.
      - subst b. rewrite string_of_list_byte_of_string. symmetry. apply String.eqb_refl.
      - symmetry. apply String.eqb_neq. intros <-.
        by rewrite list_byte_of_string_of_list_byte in E. }
    assert (typeconv false utf8_valid (OBytes b)
            = typeconv false utf8_valid (text (string_of_list_byte b))) as E.
    { unfold typeconv, text. simpl. rewrite !Hlit, Hb. simpl.
      destruct (String.eqb _ "true"); [done |].
      destruct (String.eqb _ "false"); [done |].
      destruct (re_number_match _); done. }
    split; [exact E |].
    intros s. rewrite E. unfold text. rewrite typeconv_OVal. intros [= Hs].
    unfold typeconv_val in Hs.
    destruct (String.eqb _ "true"); [done |].
    destruct (String.eqb _ "false"); [done |].
    destruct (re_number_match _); [| congruence].
    destruct (Py.int_of_string _); congruence.
Qed.

(** The claim as the specification words it: only an optional minus
    sign and digits make a number, and every other text is returned
    unchanged. *)
Definition other_text_unchanged (f : pyobj → option pyobj) : Prop :=
  ∀ s, s ≠ "true" → s ≠ "false" →
       (∀ neg d, d ≠ Decimal.Nil → s ≠ number_text neg d false) →
       f (text s) = Some (text s).

(** Under Python 3 a byte string is no [string_types] object and leaves
    [typeconv] through its first [return], as the bytes it is; the
    docstring has binary strings returned as unicode strings. *)
Lemma typeconv_bytes_python3 (utf8_valid : list byte → bool) (b : list byte) :
  typeconv true utf8_valid (OBytes b) = Some (OBytes b).
Proof. reflexivity. Qed.

(** Claim C10.  The claim has every text that is not [true], [false] or
    an optional minus sign followed by decimal digits returned
    unchanged.  The code breaks it: the text made of the digits 1 and 2
    and a final newline is no such number, yet [typeconv] returns the
    integer 12 for it, because the [$] that ends [re_number] also
    matches before a final newline. *)
Theorem typeconv_trailing_newline :
  typeconv true (fun _ => true) (text (String "1" (String "2" (String "010" ""))))
    = Some (OVal (VInt 12)) ∧
  ¬ other_text_unchanged (typeconv true (fun _ => true)).
Proof.
  split; [reflexivity |].
  intros H. specialize (H (String "1" (String "2" (String "010" "")))).
  discriminate H; try done.
  intros neg d Hd E. unfold number_text in E. rewrite append_nil_r in E.
  destruct neg; [done |]. rewrite append_nil in E.
  destruct d; try done. injection E as E.
  destruct d; try done. injection E as E.
  destruct d; done.
Qed.

End TypeconvFacts.

(** ** Serialisation of subprocess results *)

Module ExeFacts.
Import Style PyFacts Exe.

Lemma int_of_bytes_str z : Py.int_of_bytes (bytestr (Py.str_of_int z)) = Some z.
Proof.
  unfold Py.int_of_bytes, bytestr.
  by rewrite string_of_list_byte_of_string, int_of_string_str.
Qed.

(** The bytes of a rendered integer: minus signs and digits only. *)
Definition sign_or_digit (b : byte) : Prop :=
  b = "-"%byte ∨ Py.is_digit (ascii_of_byte b) = true.

Lemma bytestr_cons c s : bytestr (String c s) = byte_of_ascii c :: bytestr s.
Proof. reflexivity. Qed.

Lemma bytestr_app s t : bytestr (s +:+ t) = bytestr s ++ bytestr t.
Proof.
  induction s as [|c s IH]; [done |].
  by rewrite append_cons, !bytestr_cons, IH.
Qed.

Lemma bytestr_digits d : Forall sign_or_digit (bytestr (NilEmpty.string_of_uint d)).
Proof.
  induction d; simpl; [constructor | ..];
    rewrite bytestr_cons; (constructor; [by right | done]).
Qed.

Lemma bytestr_str_of_int z :
  Forall sign_or_digit (bytestr (Py.str_of_int z)) ∧ bytestr (Py.str_of_int z) ≠ [].
Proof.
  destruct (str_of_int_number z) as (neg & d & Hd & -> & _).
  unfold number_text. rewrite append_nil_r.
  destruct (string_of_uint_head d Hd) as (c & r & E & _).
  destruct neg; rewrite ?append_cons, append_nil.
  - rewrite bytestr_cons. split; [| done]. constructor; [by left | apply bytestr_digits].
  - split; [apply bytestr_digits |]. by rewrite E.
Qed.

Lemma sign_or_digit_plain b :
  sign_or_digit b → b ≠ "|"%byte ∧ byte_is_space b = false.
Proof.
  intros [-> | H]; [done |]. unfold byte_is_space.
  destruct b; try done.
Qed.

Lemma sign_or_digit_plain_all l :
  Forall sign_or_digit l →
  Forall (fun b => b ≠ "|"%byte) l ∧ Forall (fun b => byte_is_space b = false) l.
Proof.
  intros H. split; (eapply List.Forall_impl; [| exact H]);
    intros b Hb; by apply sign_or_digit_plain.
Qed.

Lemma find_skip sep word rest :
  Forall (fun b => b ≠ sep) word →
  find sep (word ++ sep :: rest) = Some (length word).
Proof.
  induction 1 as [|b word Hb _ IH]; simpl.
  - by rewrite bool_decide_true.
  - by rewrite bool_decide_false, IH.
Qed.

Lemma split_from_word cur word rest :
  Forall (fun b => byte_is_space b = false) word →
  split_from cur (word ++ rest) = split_from (cur ++ word) rest.
Proof.
  intros H. revert cur. induction H as [|b word Hb _ IH]; intros cur; simpl.
  - by rewrite app_nil_r.
  - by rewrite Hb, IH, <- app_assoc.
Qed.

Lemma split_three a b c :
  Forall (fun x => byte_is_space x = false) a → a ≠ [] →
  Forall (fun x => byte_is_space x = false) b → b ≠ [] →
  Forall (fun x => byte_is_space x = false) c → c ≠ [] →
  split (a ++ " "%byte :: b ++ " "%byte :: c) = [a; b; c].
Proof.
  intros Ha Na Hb Nb Hc Nc. unfold split.
  rewrite split_from_word by done. simpl.
  destruct a as [|a0 a']; [done |]. simpl.
  rewrite split_from_word by done. simpl.
  destruct b as [|b0 b']; [done |]. simpl.
  rewrite <- (app_nil_r c) at 1.
  rewrite split_from_word by done. simpl.
  by destruct c.
Qed.

Lemma slice_prefix {A} (out err : list A) :
  slice (out ++ err) 0 (len out) = out.
Proof.
  unfold slice, slice_bound, len. rewrite length_app.
  replace (0 <? 0) with false by done.
  destruct (Z.ltb_spec (Z.of_nat (length out)) 0); [lia |].
  rewrite !Z.min_r by lia. rewrite Nat2Z.id. change (Z.to_nat 0) with O.
  rewrite Nat.sub_0_r, drop_0. by rewrite take_app_length.
Qed.

Lemma slice_suffix {A} (out err : list A) :
  slice (out ++ err) (len out) (len out + len err) = err.
Proof.
  unfold slice, slice_bound, len. rewrite length_app.
  destruct (Z.ltb_spec (Z.of_nat (length out)) 0); [lia |].
  destruct (Z.ltb_spec (Z.of_nat (length out) + Z.of_nat (length err)) 0); [lia |].
  rewrite !Z.min_r by lia. rewrite Nat2Z.id.
  replace (Z.to_nat _ - length out)%nat with (length err) by lia.
  rewrite drop_app_length. by rewrite firstn_all.
Qed.

Lemma pack_unpack (returncode : Z) (out err : list byte) :
  unpack_exeresult (pack_exeresult returncode (Some out) (Some err))
  = Some (returncode, out, err).
Proof.
  unfold pack_exeresult, unpack_exeresult. simpl.
  rewrite !bytestr_app.
  destruct (bytestr_str_of_int returncode) as [Hrc Nrc].
  destruct (bytestr_str_of_int (len out)) as [Ho No].
  destruct (bytestr_str_of_int (len err)) as [He Ne].
  set (rc := bytestr (Py.str_of_int returncode)) in *.
  set (lo := bytestr (Py.str_of_int (len out))) in *.
  set (le := bytestr (Py.str_of_int (len err))) in *.
  change (bytestr " ") with [" "%byte]. change (bytestr "|") with ["|"%byte].
  set (header := rc ++ " "%byte :: lo ++ " "%byte :: le).
  replace ((rc ++ [" "%byte] ++ lo ++ [" "%byte] ++ le ++ ["|"%byte]) ++ out ++ err)
    with (header ++ "|"%byte :: out ++ err).
  2:{ unfold header. repeat (rewrite <- ?app_assoc; simpl). reflexivity. }
  assert (Forall (fun b => b ≠ "|"%byte) header) as Hbar.
  { unfold header. apply Forall_app; split; [by apply sign_or_digit_plain_all |].
    constructor; [done |]. apply Forall_app; split; [by apply sign_or_digit_plain_all |].
    constructor; [done |]. by apply sign_or_digit_plain_all. }
  rewrite find_skip by done.
  rewrite take_app_length.
  replace (S (length header)) with (length (header ++ ["|"%byte]))
    by (rewrite length_app; simpl; lia).
  replace (header ++ "|"%byte :: out ++ err) with ((header ++ ["|"%byte]) ++ out ++ err)
    by (by rewrite <- app_assoc).
  rewrite drop_app_length.
  unfold numvalues_of, header.
  rewrite split_three; try done; try (by apply sign_or_digit_plain_all).
  simpl. unfold rc, lo, le. rewrite !int_of_bytes_str. simpl.
  replace (len out + len err =? len (out ++ err)) with true.
  2:{ symmetry. apply Z.eqb_eq. unfold len. rewrite length_app. lia. }
  simpl. by rewrite slice_prefix, slice_suffix.
Qed.

(** Claim C6.  Unpacking what [pack_exeresult] packed gives back the return
    code and both byte strings; and a buffer whose header declares
    lengths that do not add up to the number of bytes behind the
    separator is rejected with the error, whatever else it holds. *)
Theorem pack_unpack_exeresult :
  (∀ (returncode : Z) (out err : list byte),
     unpack_exeresult (pack_exeresult returncode (Some out) (Some err))
     = Some (returncode, out, err)) ∧
  (∀ (buf : list byte) (pos : nat) (returncode outlen errlen : Z),
     find "|"%byte buf = Some pos →
     numvalues_of (take pos buf) = [returncode; outlen; errlen] →
     outlen + errlen ≠ len (drop (S pos) buf) →
     unpack_exeresult buf = None).
Proof.
  split; [apply pack_unpack |].
  intros buf pos rc outlen errlen Hpos Hnum Hsum.
  unfold unpack_exeresult. rewrite Hpos, Hnum.
  by rewrite (proj2 (Z.eqb_neq _ _) Hsum).
Qed.

End ExeFacts.

(** ** The diff metric *)

Module MetricFacts.
Import Exe Metric.

(** *** Hunk headers *)

(** A number in a hunk header: one or more ASCII digits. *)
Definition is_number (digits : list byte) : Prop :=
  digits ≠ [] ∧ Forall (fun b => byte_is_digit b = true) digits.

Definition count_text (count : option (list byte)) : list byte :=
  match count with
  | Some digits => ","%byte :: digits
  | None => []
  end.

(** The text [@@ -a(,b)? +c(,d)? @@]. *)
Definition header_text (m : groups) : list byte :=
  let '(a, b, c, d) := m in
  bytestr "@@ -" ++ a ++ count_text b ++ bytestr " +" ++ c ++ count_text d
    ++ bytestr " @@".

Definition is_header (m : groups) : Prop :=
  let '(a, b, c, d) := m in
  is_number a ∧ from_option is_number True b ∧
  is_number c ∧ from_option is_number True d.

Lemma match_literal_app lit rest : match_literal lit (lit ++ rest) = Some rest.
Proof. induction lit as [|c lit IH]; [done |]. simpl. by rewrite bool_decide_true. Qed.

Lemma match_literal_inv lit data rest :
  match_literal lit data = Some rest → data = lit ++ rest.
Proof.
  revert data. induction lit as [|c lit IH]; intros [|b data]; simpl; try congruence.
  case_bool_decide; [| done]. subst. intros ->%IH. done.
Qed.

(** What may follow a digit run: nothing, or a byte that is no digit. *)
Definition stops (rest : list byte) : Prop :=
  match rest with
  | [] => True
  | b :: _ => byte_is_digit b = false
  end.

Lemma span_digits_app digits rest :
  Forall (fun b => byte_is_digit b = true) digits → stops rest →
  span_digits (digits ++ rest) = (digits, rest).
Proof.
  induction 1 as [|b digits Hb _ IH]; intros Hrest; simpl.
  - destruct rest as [|b rest]; [done |]. simpl in *. by rewrite Hrest.
  - by rewrite Hb, IH.
Qed.

Lemma span_digits_inv data digits rest :
  span_digits data = (digits, rest) →
  data = digits ++ rest ∧ Forall (fun b => byte_is_digit b = true) digits ∧ stops rest.
Proof.
  revert digits rest. induction data as [|b data IH]; intros digits rest; simpl.
  - intros [= <- <-]. by repeat constructor.
  - destruct (byte_is_digit b) eqn:Hb.
    + destruct (span_digits data) as [ds r]. intros [= <- <-].
      destruct (IH ds r eq_refl) as (-> & Hds & Hr). by repeat constructor.
    + intros [= <- <-]. by repeat constructor.
Qed.

Lemma match_digits_app digits rest :
  is_number digits → stops rest → match_digits (digits ++ rest) = Some (digits, rest).
Proof.
  intros [Hne Hd] Hr. unfold match_digits. rewrite span_digits_app by done.
  by destruct digits.
Qed.

Lemma match_digits_inv data digits rest :
  match_digits data = Some (digits, rest) →
  data = digits ++ rest ∧ is_number digits ∧ stops rest.
Proof.
  unfold match_digits. destruct (span_digits data) as [ds r] eqn:E.
  apply span_digits_inv in E as (-> & Hds & Hr).
  destruct ds as [|b ds]; [done |]. intros [= <- <-]. by repeat split.
Qed.

Lemma match_count_app count rest :
  from_option is_number True count → stops rest → (∀ r, rest ≠ ","%byte :: r) →
  match_count (count_text count ++ rest) = (count, rest).
Proof.
  intros Hc Hr Hcomma. destruct count as [digits|]; simpl.
  - by rewrite match_digits_app.
  - destruct rest as [|b rest]; [done |]. simpl. case_bool_decide; [| done].
    subst. by destruct (Hcomma rest).
Qed.

Lemma match_count_inv data count rest :
  match_count data = (count, rest) →
  data = count_text count ++ rest ∧ from_option is_number True count.
Proof.
  unfold match_count. destruct data as [|b data]; [by intros [= <- <-] |].
  case_bool_decide as Hb; [| by intros [= <- <-]]. subst b.
  destruct (match_digits data) as [[ds r]|] eqn:E; [| by intros [= <- <-]].
  apply match_digits_inv in E as (-> & Hds & _). by intros [= <- <-].
Qed.

#[local] Arguments match_literal : simpl never.
#[local] Arguments match_digits : simpl never.
#[local] Arguments match_count : simpl never.
#[local] Arguments bytestr : simpl never.

(** The matcher accepts exactly the texts that begin with a hunk
    header, and returns its numbers. *)
Lemma match_hunk_header data m :
  match_hunk data = Some m ↔ is_header m ∧ ∃ rest, data = header_text m ++ rest.
Proof.
  destruct m as [[[a b] c] d]. unfold match_hunk, header_text, is_header. split.
  - intros H.
    destruct (match_literal _ data) as [d1|] eqn:E1; [| done]. simpl in H.
    apply match_literal_inv in E1 as ->.
    destruct (match_digits d1) as [[a' d2]|] eqn:E2; [| done]. simpl in H.
    apply match_digits_inv in E2 as (-> & Ha & _).
    destruct (match_count d2) as [b' d3] eqn:E3.
    apply match_count_inv in E3 as (-> & Hb).
    destruct (match_literal _ d3) as [d4|] eqn:E4; [| done]. simpl in H.
    apply match_literal_inv in E4 as ->.
    destruct (match_digits d4) as [[c' d5]|] eqn:E5; [| done]. simpl in H.
    apply match_digits_inv in E5 as (-> & Hc & _).
    destruct (match_count d5) as [d' d6] eqn:E6.
    apply match_count_inv in E6 as (-> & Hd).
    destruct (match_literal _ d6) as [d7|] eqn:E7; [| done]. simpl in H.
    apply match_literal_inv in E7 as ->.
    injection H as <- <- <- <-. split; [done |]. exists d7.
    by rewrite <- !app_assoc.
  - intros [(Ha & Hb & Hc & Hd) [rest ->]].
    rewrite <- !app_assoc. rewrite match_literal_app. simpl.
    assert (∀ count tail, from_option is_number True count →
              stops (count_text count ++ bytestr " " ++ tail)) as Hstop.
    { intros [ds|] tail _; done. }
    rewrite match_digits_app; [| done | apply (Hstop b ("+"%byte :: _) Hb)]. simpl.
    rewrite match_count_app; [| done | done | done]. simpl.
    rewrite match_digits_app; [| done | apply (Hstop d ("@"%byte :: "@"%byte :: _) Hd)].
    simpl. by rewrite match_count_app.
Qed.


(** The positions at which [^] holds: the start of the data and the
    position behind every newline. *)
Fixpoint line_starts (line_start : bool) (data : list byte) : list (list byte) :=
  match data with
  | [] => []
  | b :: rest =>
      (if line_start then [data] else [])
        ++ line_starts (bool_decide (b = "010"%byte)) rest
  end.

Lemma finditer_line_starts line_start data :
  finditer line_start data = omap match_hunk (line_starts line_start data).
Proof.
  revert line_start. induction data as [|b rest IH]; intros ls; [done |].
  cbn [finditer line_starts]. rewrite omap_app, <- IH.
  destruct ls; [| done]. simpl. by destruct (match_hunk (b :: rest)).
Qed.

(** *** The metric *)

(** The sizes [(b, d)] a hunk header declares, each 1 when omitted. *)
Definition hunk_sizes (m : groups) : Z * Z :=
  let '(_, dels, _, adds) := m in
  (from_option int_of_digits 1 dels, from_option int_of_digits 1 adds).

Definition hunks (diffoutput : list byte) : list (Z * Z) :=
  hunk_sizes <$> finditer true diffoutput.

Definition sum (l : list Z) : Z := foldr Z.add 0 l.

Lemma sum_app l k : sum (l ++ k) = sum l + sum k.
Proof. induction l as [|x l IH]; simpl; lia. Qed.

Lemma count_hunks_sums ms st :
  additions (fold_left count_hunk ms st)
    = additions st + sum (snd <$> (hunk_sizes <$> ms)) ∧
  deletions (fold_left count_hunk ms st)
    = deletions st + sum (fst <$> (hunk_sizes <$> ms)) ∧
  hunkdiffs (fold_left count_hunk ms st)
    = hunkdiffs st + sum ((fun h => Z.abs (h.2 - h.1)) <$> (hunk_sizes <$> ms)).
Proof.
  revert st. induction ms as [|m ms IH]; intros st; [cbn; lia |].
  cbn [fold_left fmap list_fmap sum foldr].
  destruct (IH (count_hunk st m)) as (-> & -> & ->).
  destruct m as [[[a b] c] d]. unfold sum.
  destruct b, d; cbn [count_hunk hunk_sizes from_option additions deletions hunkdiffs fst snd];
    lia.
Qed.

(** The counting loop as three sums over the matches of [re_hunk]. *)
Lemma metric_for_mindiff_sums (diffoutput : list byte) (numlines : option Z) :
  let additions := sum (snd <$> hunks diffoutput) in
  let deletions := sum (fst <$> hunks diffoutput) in
  let hunkdiffs := sum ((fun h => Z.abs (h.2 - h.1)) <$> hunks diffoutput) in
  let base := 2 + additions + deletions + hunkdiffs in
  metric_for_mindiff diffoutput numlines =
  match diffoutput with
  | [] => 0
  | _ =>
      match numlines with
      | Some n =>
          if bool_decide (n ≤ base) then base + Z.abs (n - (n + additions - deletions))
          else base
      | None => base
      end
  end.
Proof.
  intros adds dels diffs base.
  destruct (count_hunks_sums (finditer true diffoutput)
              {| additions := 0; deletions := 0; hunkdiffs := 0; maxhunkdiff := 0 |})
    as (Ha & Hd & Hh).
  fold (hunks diffoutput) in Ha, Hd, Hh. fold adds in Ha. fold dels in Ha, Hd.
  fold dels in Hd. fold diffs in Hh.
  unfold metric_for_mindiff. destruct diffoutput as [|b rest]; [done |].
  rewrite Ha, Hd, Hh. cbn [additions deletions hunkdiffs].
  replace (2 + (0 + adds) + (0 + dels) + (0 + diffs)) with base by (unfold base; lia).
  destruct numlines as [n|]; [| done].
  destruct (Z.leb_spec n base); case_bool_decide; lia.
Qed.

(** The number a run of decimal digits denotes, digit by digit with
    its weight. *)
Fixpoint decimal_value (digits : list byte) : Z :=
  match digits with
  | [] => 0
  | b :: rest => digit_value b * 10 ^ Z.of_nat (length rest) + decimal_value rest
  end.

Lemma int_of_digits_decimal digits : int_of_digits digits = decimal_value digits.
Proof.
  unfold int_of_digits.
  assert (∀ n, fold_left (fun n b => 10 * n + digit_value b) digits n
               = n * 10 ^ Z.of_nat (length digits) + decimal_value digits) as H.
  { induction digits as [|b rest IH]; intros n; simpl; [lia |].
    rewrite IH. rewrite Nat2Z.inj_succ, Z.pow_succ_r by lia. lia. }
  rewrite H. lia.
Qed.

(** The sizes [(b, d)] a hunk header declares, each 1 when omitted. *)
Definition declared_sizes (m : groups) : Z * Z :=
  let '(_, b, _, d) := m in
  (from_option decimal_value 1 b, from_option decimal_value 1 d).

(** The hunk headers of a diff output, as the specification has them:
    going through the line starts in order, every text
    [@@ -a(,b)? +c(,d)? @@] that begins there is a header, and there is
    no other. *)
Inductive headers_at : list (list byte) → list groups → Prop :=
| headers_none : headers_at [] []
| headers_here line lines m ms :
    is_header m → (∃ rest, line = header_text m ++ rest) →
    headers_at lines ms → headers_at (line :: lines) (m :: ms)
| headers_skip line lines ms :
    (∀ m rest, is_header m → line ≠ header_text m ++ rest) →
    headers_at lines ms → headers_at (line :: lines) ms.

Definition hunk_headers (diffoutput : list byte) (headers : list groups) : Prop :=
  headers_at (line_starts true diffoutput) headers.

Lemma headers_at_omap lines ms : headers_at lines ms ↔ ms = omap match_hunk lines.
Proof.
  split.
  - induction 1 as [|line lines m ms Hm Hline _ IH|line lines ms Hline _ IH]; simpl.
    + done.
    + rewrite (proj2 (match_hunk_header line m)) by done. simpl. by rewrite IH.
    + destruct (match_hunk line) as [m|] eqn:E; [| done].
      apply match_hunk_header in E as [Hm [rest ->]]. by destruct (Hline m rest).
  - intros ->. induction lines as [|line lines IH]; simpl; [constructor |].
    destruct (match_hunk line) as [m|] eqn:E; simpl.
    + apply match_hunk_header in E as [Hm Hrest]. by constructor.
    + apply headers_skip; [| done]. intros m rest Hm ->.
      rewrite (proj2 (match_hunk_header _ m)) in E; [done |]. split; [done |]. by exists rest.
Qed.

Lemma hunk_headers_finditer diffoutput headers :
  hunk_headers diffoutput headers ↔ headers = finditer true diffoutput.
Proof. unfold hunk_headers. by rewrite headers_at_omap, finditer_line_starts. Qed.

Lemma hunk_sizes_declared m : hunk_sizes m = declared_sizes m.
Proof.
  destruct m as [[[a b] c] d]. unfold hunk_sizes, declared_sizes.
  destruct b, d; simpl; by rewrite ?int_of_digits_decimal.
Qed.

(** Claim C1.  Every diff output has its hunk headers, the texts
    [@@ -a(,b)? +c(,d)? @@] at the starts of its lines, and for every
    optional line count the metric is 0 for an empty output; otherwise
    it is [2 + additions + deletions + hunkdiffs], where [additions] is
    the sum of [d], [deletions] the sum of [b] (each 1 when omitted) and
    [hunkdiffs] the sum of [|d - b|] over the hunk headers of the
    output, with [|n - (n + additions - deletions)|] added when a line
    count [n] is given that the base value reaches. *)
Theorem metric_for_mindiff_formula (diffoutput : list byte) (numlines : option Z) :
  (∃ headers, hunk_headers diffoutput headers) ∧
  ∀ headers, hunk_headers diffoutput headers →
    let sizes := declared_sizes <$> headers in
    let additions := sum (snd <$> sizes) in
    let deletions := sum (fst <$> sizes) in
    let hunkdiffs := sum ((fun h => Z.abs (h.2 - h.1)) <$> sizes) in
    let base := 2 + additions + deletions + hunkdiffs in
    metric_for_mindiff diffoutput numlines =
    match diffoutput with
    | [] => 0
    | _ =>
        match numlines with
        | Some n =>
            if bool_decide (n ≤ base) then base + Z.abs (n - (n + additions - deletions))
            else base
        | None => base
        end
    end.
Proof.
  split; [exists (finditer true diffoutput); by apply hunk_headers_finditer |].
  intros headers ->%hunk_headers_finditer.
  replace (declared_sizes <$> finditer true diffoutput) with (hunks diffoutput).
  - apply metric_for_mindiff_sums.
  - unfold hunks. apply list_fmap_ext. intros _ m _. apply hunk_sizes_declared.
Qed.

Lemma metric_for_mindiff_formula_witness :
  let diffoutput :=
    bytestr ("--- a/utf8.c" +:+ String "010" ("+++ -" +:+ String "010"
       ("@@ -102 +102,2 @@" +:+ String "010" ("-static void add_error() {"
       +:+ String "010" ("+static void" +:+ String "010" "+add_error() {"))))) in
  let header := (bytestr "102", None, bytestr "102", Some (bytestr "2")) in
  hunk_headers diffoutput [header] ∧ metric_for_mindiff diffoutput None = 6.
Proof.
  intros diffoutput header.
  assert (hunk_headers diffoutput [header]) as H
    by (apply hunk_headers_finditer; vm_compute; reflexivity).
  split; [exact H |].
  exact (proj2 (metric_for_mindiff_formula diffoutput None) [header] H).
Defined.

(** The diff of the docstring: one line replaced by two. *)
Example metric_docstring :
  metric_for_mindiff
    (bytestr ("--- a/utf8.c" +:+ String "010" ("+++ -" +:+ String "010"
       ("@@ -102 +102,2 @@" +:+ String "010" ("-static void add_error() {"
       +:+ String "010" ("+static void" +:+ String "010" "+add_error() {"))))))
    None = 6.
Proof. reflexivity. Qed.

(** [test_builtin_diff]: one line changed gives 4. *)
Example metric_one_line :
  metric_for_mindiff
    (bytestr ("--- a" +:+ String "010" ("+++ b" +:+ String "010"
       ("@@ -2 +2 @@" +:+ String "010" ("-b" +:+ String "010" "+e")))))
    None = 4.
Proof. reflexivity. Qed.

End MetricFacts.

(** ** The variants of clang-format options *)

Module ClangFacts.
Import Style Clang.

(** The values of the enum [UseTab], in the order of the option history. *)
Definition usetab_values : list value :=
  [VStr "Never"; VStr "ForIndentation"; VStr "Always"].

(** [{UseTab: Never}] alone, then [{UseTab: ForIndentation, TabWidth: i}]
    and [{UseTab: Always, TabWidth: i}] for [i] from 1 to 8. *)
Definition usetab_with_width (usetab : string) (i : Z) : style :=
  [("UseTab", VStr usetab); ("TabWidth", VInt i)].

Definition usetab_expected : list style :=
  [[("UseTab", VStr "Never")]]
    ++ map (usetab_with_width "ForIndentation") [1; 2; 3; 4; 5; 6; 7; 8]
    ++ map (usetab_with_width "Always") [1; 2; 3; 4; 5; 6; 7; 8].

(** The candidates that one value of [UseTab] contributes. *)
Definition usetab_block (c : value) : list style :=
  if value_eqb c (VStr "Never") then [stylevariant "UseTab" c]
  else map (fun addopt => update (stylevariant "UseTab" c) addopt)
           (map (fun i => stylevariant "TabWidth" (VInt i)) (inclusiverange 1 8)).

Lemma variants_for_usetab styletype configs :
  variants_for (Option "UseTab" styletype configs None) = flat_map usetab_block configs.
Proof. reflexivity. Qed.

(** Claim C7.  For the option [UseTab] with the values [Never],
    [ForIndentation] and [Always], in any order, [variants_for] returns
    17 candidates, which are exactly [{UseTab: Never}] and, for every
    [i] from 1 to 8, [{UseTab: ForIndentation, TabWidth: i}] and
    [{UseTab: Always, TabWidth: i}]; with the values in the order of the
    option history the candidates come in the order just given. *)
Theorem usetab_variants (styletype : string) (configs : list value) :
  Permutation configs usetab_values →
  let candidates := variants_for (Option "UseTab" styletype configs None) in
  length candidates = 17%nat ∧
  Permutation candidates usetab_expected ∧
  (∀ s, s ∈ candidates ↔
        s = [("UseTab", VStr "Never")] ∨
        ∃ i, 1 ≤ i ≤ 8 ∧ (s = usetab_with_width "ForIndentation" i
                          ∨ s = usetab_with_width "Always" i)) ∧
  (configs = usetab_values → candidates = usetab_expected).
Proof.
  intros Hperm candidates. subst candidates. rewrite variants_for_usetab.
  assert (Permutation (flat_map usetab_block configs) usetab_expected) as Hexp.
  { change usetab_expected with (flat_map usetab_block usetab_values).
    by apply Permutation_flat_map. }
  split_and!.
  - by rewrite (Permutation_length Hexp).
  - exact Hexp.
  - intros s. rewrite Hexp. unfold usetab_expected.
    rewrite !elem_of_app, !list_elem_of_fmap, list_elem_of_singleton. split.
    + intros [-> | [(i & -> & Hi) | (i & -> & Hi)]]; [by left | right; exists i ..].
      * split; [| by left]. set_unfold. lia.
      * split; [| by right]. set_unfold. lia.
    + intros [-> | (i & Hi & [-> | ->])]; [by left | right; left | right; right];
        (exists i; split; [done |]; set_unfold; lia).
  - by intros ->.
Qed.

Lemma usetab_variants_witness :
  Permutation usetab_values usetab_values ∧
  length (variants_for (Option "UseTab" "UseTabStyle" usetab_values None)) = 17%nat.
Proof.
  split; [reflexivity |].
  apply (usetab_variants "UseTabStyle" usetab_values). reflexivity.
Defined.

(** Scenario S3 of the specification: a plain boolean option. *)
Example bool_variants :
  variants_for (Option "IndentCaseLabels" "bool" [] None)
  = [[("IndentCaseLabels", VBool true)]; [("IndentCaseLabels", VBool false)]].
Proof. reflexivity. Qed.

(** The docstring of [variants_for]: an enum coupled with a boolean. *)
Example pointer_alignment_variants :
  variants_for (Option "PointerAlignment" "PointerAlignmentStyle"
                  [VStr "Left"; VStr "Right"; VStr "Middle"] None)
  = [[("DerivePointerAlignment", VBool false); ("PointerAlignment", VStr "Left")];
     [("DerivePointerAlignment", VBool false); ("PointerAlignment", VStr "Right")];
     [("DerivePointerAlignment", VBool false); ("PointerAlignment", VStr "Middle")];
     [("DerivePointerAlignment", VBool true)]].
Proof. reflexivity. Qed.

End ClangFacts.

(** ** The dispatcher *)

Module DispatchFacts.
Import Exe Dispatch.

(** *** The pool yields the results in submission order *)
Section Pool.

Context {A R : Type}.
Variable func : A → R.

(** Every filled handle holds the result of its own job. *)
Definition handles_ok (jobs : list A) (handles : list (option R)) : Prop :=
  ∀ j r, handles !! j = Some (Some r) → ∃ a, jobs !! j = Some a ∧ r = func a.

Lemma handles_ok_insert jobs handles i a :
  handles_ok jobs handles → jobs !! i = Some a →
  handles_ok jobs (<[i := Some (func a)]> handles).
Proof.
  intros Hok Hi j r Hj. destruct (decide (i = j)) as [<- | Hne].
  - destruct (decide (i < length handles)%nat) as [Hlt | Hge].
    + rewrite list_lookup_insert_eq in Hj by done. injection Hj as <-. eauto.
    + rewrite list_insert_ge in Hj by lia. eauto.
  - rewrite list_lookup_insert_ne in Hj by done. eauto.
Qed.

Lemma finish_ok jobs j handles :
  handles_ok jobs handles → handles_ok jobs (finish func jobs j handles).
Proof.
  intros Hok. unfold finish. destruct (jobs !! j) as [a|] eqn:Ej; [| done].
  destruct (handles !! j) as [[r|]|]; try done. by apply handles_ok_insert.
Qed.

Lemma async_get_result jobs i a handles sched :
  handles_ok jobs handles → jobs !! i = Some a →
  (async_get func jobs i a handles sched).1.1 = func a ∧
  handles_ok jobs (async_get func jobs i a handles sched).1.2.
Proof.
  intros Hok Hi. revert handles Hok.
  induction sched as [|j sched IH]; intros handles Hok; simpl.
  - destruct (handles !! i) as [[r|]|] eqn:E; simpl.
    + destruct (Hok i r E) as (a' & Ha' & ->). split; [congruence | done].
    + split; [done | by apply handles_ok_insert].
    + split; [done | by apply handles_ok_insert].
  - destruct (handles !! i) as [[r|]|] eqn:E; simpl.
    + destruct (Hok i r E) as (a' & Ha' & ->). split; [congruence | done].
    + apply IH. by apply finish_ok.
    + apply IH. by apply finish_ok.
Qed.

Lemma pool_yield_in_order jobs async_results handles sched :
  handles_ok jobs handles →
  Forall (fun ia => jobs !! ia.1 = Some ia.2) async_results →
  pool_yield func jobs async_results handles sched = (fun ia => func ia.2) <$> async_results.
Proof.
  intros Hok Hall. revert handles sched Hok.
  induction Hall as [|[i a] rest Hi _ IH]; intros handles sched Hok; [done |].
  simpl in *. destruct (async_get_result jobs i a handles sched Hok Hi) as [Hr Hok'].
  destruct (async_get func jobs i a handles sched) as [[r handles'] sched'].
  simpl in *. subst r. f_equal. by apply IH.
Qed.

Lemma imap_pair_lookup (jobs : list A) :
  Forall (fun ia : nat * A => jobs !! ia.1 = Some ia.2) (imap (fun i a => (i, a)) jobs).
Proof.
  apply Forall_forall. intros [i a] Hin.
  apply list_elem_of_lookup in Hin as [k Hk].
  rewrite list_lookup_imap in Hk.
  destruct (jobs !! k) as [a'|] eqn:E; [| done]. simpl in Hk. by injection Hk as <- <-.
Qed.

Lemma imap_pair_snd (jobs : list A) :
  (fun ia : nat * A => func ia.2) <$> imap (fun i a => (i, a)) jobs = func <$> jobs.
Proof.
  apply list_eq. intros k. rewrite !list_lookup_fmap, list_lookup_imap.
  by destruct (jobs !! k).
Qed.

(** Whatever the mode and the order in which the workers finish,
    [iter_parallel] yields the result of every job, in the order of the
    jobs. *)
Lemma iter_parallel_in_order multiprocessing jobs mode sched :
  iter_parallel func multiprocessing jobs mode sched = func <$> jobs.
Proof.
  unfold iter_parallel. destruct jobs as [|a jobs]; [done |].
  set (l := a :: jobs). unfold iter_parallel_report.
  destruct (_ || _ || _); [done |].
  rewrite pool_yield_in_order.
  - apply imap_pair_snd.
  - intros j r Hj. apply lookup_replicate in Hj as [? _]. done.
  - apply imap_pair_lookup.
Qed.

End Pool.

(** *** Cached and fresh results are merged back in submission order *)
Section RunExecutables.

Context {Seconds : Type}.
Variable zero_seconds : Seconds.
Variable call_popen : CallArgs → ExeResult Seconds.
Variable execall_hash : ExeCall → string.
Variable multiprocessing : bool.

#[local] Abbreviation result := (ExeResult Seconds).
#[local] Abbreviation merge := (@merge Seconds).

Lemma merge_nil_r (xs : list (nat * result)) : merge xs [] = xs.
Proof. by destruct xs. Qed.

Lemma merge_nil_l (ys : list (nat * result)) : merge [] ys = ys.
Proof. by destruct ys. Qed.

Lemma merge_first_l x (xs ys : list (nat * result)) :
  Forall (fun y => (x.1 < y.1)%nat) ys → merge (x :: xs) ys = x :: merge xs ys.
Proof.
  intros Hys. destruct ys as [|y ys]; [by rewrite !merge_nil_r |].
  apply Forall_cons in Hys as [Hy _]. simpl.
  destruct (Nat.leb_spec x.1 y.1); [done | lia].
Qed.

Lemma merge_first_r y (xs ys : list (nat * result)) :
  Forall (fun x => (y.1 < x.1)%nat) xs → merge xs (y :: ys) = y :: merge xs ys.
Proof.
  intros Hxs. destruct xs as [|x xs]; [by rewrite !merge_nil_l |].
  apply Forall_cons in Hxs as [Hx _]. simpl.
  destruct (Nat.leb_spec x.1 y.1); [lia | done].
Qed.

(** What one job yields when the jobs are run one after the other: the
    cached result if the cache holds one, the result of the call
    otherwise. *)
Definition result_of (item : CallArgs * string * option (list byte)) : option result :=
  match item.2 with
  | Some cvalue => c2exeresult zero_seconds cvalue
  | None => Some (call_popen item.1.1)
  end.

Lemma split_cached_bounds idx items cachedresults keys jobs jobindices :
  split_cached zero_seconds idx items = Some (cachedresults, keys, jobs, jobindices) →
  Forall (fun ir => (idx ≤ ir.1)%nat) cachedresults ∧
  Forall (fun i => (idx ≤ i)%nat) jobindices ∧
  length jobindices = length jobs ∧ length keys = length jobs.
Proof.
  revert idx cachedresults keys jobs jobindices.
  induction items as [|[[arg key] cvalue] items IH]; intros idx cr ks js jis; simpl.
  - intros [= <- <- <- <-]. by repeat constructor.
  - destruct cvalue as [cvalue|]; simpl.
    + destruct (c2exeresult _ cvalue) as [r|]; [simpl | done].
      destruct (split_cached _ (S idx) items) as [[[[cr' ks'] js'] jis']|] eqn:E; [| done].
      simpl. intros [= <- <- <- <-].
      destruct (IH _ _ _ _ _ E) as (Hcr & Hjis & Hlen & Hlen').
      split_and!; try done.
      * constructor; [simpl; lia |]. eapply Forall_impl; [exact Hcr |]. simpl. lia.
      * eapply Forall_impl; [exact Hjis |]. simpl. lia.
    + destruct (split_cached _ (S idx) items) as [[[[cr' ks'] js'] jis']|] eqn:E; [| done].
      simpl. intros [= <- <- <- <-].
      destruct (IH _ _ _ _ _ E) as (Hcr & Hjis & Hlen & Hlen').
      split_and!; simpl; try lia.
      * eapply Forall_impl; [exact Hcr |]. simpl. lia.
      * constructor; [lia |]. eapply Forall_impl; [exact Hjis |]. simpl. lia.
Qed.

Lemma split_cached_merge idx items :
  ('(cachedresults, _, jobs, jobindices) ← split_cached zero_seconds idx items;
   Some ((fun ir => ir.2) <$> merge cachedresults (zip jobindices (call_popen <$> jobs))))
  = mapM result_of items.
Proof.
  revert idx. induction items as [|[[arg key] cvalue] items IH]; intros idx; [done |].
  specialize (IH (S idx)).
  change (mapM result_of ((arg, key, cvalue) :: items))
    with (y ← result_of (arg, key, cvalue); k ← mapM result_of items; Some (y :: k)).
  rewrite <- IH. clear IH. unfold result_of. cbn [split_cached fst snd].
  destruct cvalue as [cvalue|].
  - destruct (c2exeresult _ cvalue) as [r|]; [| done]. cbn [mbind option_bind].
    destruct (split_cached _ (S idx) items) as [[[[cr ks] js] jis]|] eqn:E; [| done].
    cbn [mbind option_bind]. f_equal.
    apply split_cached_bounds in E as (_ & Hjis & Hlen & _).
    rewrite merge_first_l; [done |].
    apply Forall_forall. intros [i r'] Hin. simpl.
    apply elem_of_zip_l in Hin. rewrite Forall_forall in Hjis.
    specialize (Hjis i Hin). lia.
  - cbn [mbind option_bind].
    destruct (split_cached _ (S idx) items) as [[[[cr ks] js] jis]|] eqn:E; [| done].
    cbn [mbind option_bind]. f_equal.
    apply split_cached_bounds in E as (Hcr & _ & _ & _).
    cbn [fmap list_fmap zip zip_with].
    rewrite merge_first_r; [done |].
    eapply Forall_impl; [exact Hcr |]. simpl. lia.
Qed.

Lemma zip_seq_snd {B} (n : nat) (l : list B) :
  (fun ir : nat * B => ir.2) <$> zip (seq n (length l)) l = l.
Proof.
  revert n. induction l as [|x l IH]; intros n; [done |].
  cbn [length seq zip zip_with fmap list_fmap]. by rewrite IH.
Qed.

Lemma mapM_total {B C} (f : B → C) (l : list B) :
  mapM (fun x => Some (f x)) l = Some (f <$> l).
Proof. induction l as [|x l IH]; [done |]. simpl. by rewrite IH. Qed.

(** The result that running the jobs one after the other gives for one
    job. *)
Definition sequential_result (cache : option (gmap string (list byte))) (ec : ExeCall)
  : option result :=
  match cache ≫= (fun c => c !! execall_hash ec) with
  | Some cvalue => c2exeresult zero_seconds cvalue
  | None => Some (call_popen (args_of ec))
  end.

#[local] Abbreviation run_executables :=
  (run_executables zero_seconds call_popen execall_hash multiprocessing).

Lemma run_executables_sequential execalls cache mode sched :
  fst <$> run_executables execalls cache mode sched
  = mapM (sequential_result cache) execalls.
Proof.
  unfold Dispatch.run_executables. destruct cache as [c|].
  - replace (mapM _ execalls) with
      (mapM result_of
         (zip (zip (args_of <$> execalls) (execall_hash <$> execalls))
              ((fun k => c !! k) <$> (execall_hash <$> execalls)))).
    2:{ clear. induction execalls as [|ec l IH]; [done |].
        cbn [fmap list_fmap zip zip_with mapM]. rewrite IH. done. }
    rewrite <- (split_cached_merge 0).
    destruct (split_cached _ 0 _) as [[[[cr ks] js] jis]|]; [| done].
    cbn [mbind option_bind fmap option_fmap option_map fst].
    by rewrite iter_parallel_in_order.
  - cbn [mbind option_bind fmap option_fmap option_map fst].
    rewrite iter_parallel_in_order, merge_nil_l.
    unfold sequential_result. cbn [mbind option_bind].
    rewrite mapM_total, <- (length_fmap call_popen (args_of <$> execalls)), zip_seq_snd.
    by rewrite <- list_fmap_compose.
Qed.

Lemma run_executables_mode execalls cache mode sched :
  run_executables execalls cache mode sched = run_executables execalls cache CC_OFF [].
Proof.
  unfold Dispatch.run_executables.
  destruct (match cache with Some _ => _ | None => _ end) as [[[[cr ks] js] jis]|]; [| done].
  cbn [mbind option_bind]. by rewrite !iter_parallel_in_order.
Qed.

End RunExecutables.

(** Claim C4.  Whatever the concurrency mode, the order in which the
    workers finish and the split of the jobs into cache hits and
    misses, [run_executables] yields what it yields when it runs the
    jobs inline, which is what running the jobs one after the other
    gives: for every job, in submission order, its cached result if
    there is one and the result of its call otherwise.  So there is
    exactly one result per job, at the position of the job; and results
    are yielded whenever every cached value at hand unpacks. *)
Theorem run_executables_in_order {Seconds : Type} (zero_seconds : Seconds)
    (call_popen : CallArgs → ExeResult Seconds) (execall_hash : ExeCall → string)
    (multiprocessing : bool) (execalls : list ExeCall)
    (cache : option (gmap string (list byte))) (mode : ccmode) (sched : list nat) :
  let run := run_executables zero_seconds call_popen execall_hash multiprocessing
               execalls cache in
  let sequential := sequential_result zero_seconds call_popen execall_hash cache in
  run mode sched = run CC_OFF [] ∧
  fst <$> run mode sched = mapM sequential execalls ∧
  (∀ results cache', run mode sched = Some (results, cache') →
     length results = length execalls ∧
     ∀ i ec, execalls !! i = Some ec →
             ∃ r, results !! i = Some r ∧ sequential ec = Some r) ∧
  ((∀ ec, ec ∈ execalls → is_Some (sequential ec)) → is_Some (run mode sched)).
Proof.
  intros run sequential. subst run.
  pose proof (run_executables_sequential zero_seconds call_popen execall_hash
                multiprocessing execalls cache mode sched) as Hseq.
  fold sequential in Hseq. split_and!.
  - apply run_executables_mode.
  - exact Hseq.
  - intros results cache' Hrun. rewrite Hrun in Hseq. simpl in Hseq.
    symmetry in Hseq. apply mapM_Some in Hseq. split.
    + symmetry. by eapply Forall2_length.
    + intros i ec Hi. destruct (Forall2_lookup_l _ _ _ _ _ Hseq Hi) as (r & Hr & Hs). eauto.
  - intros Hall.
    assert (is_Some (mapM sequential execalls)) as [rs Hrs].
    { apply mapM_is_Some. by apply Forall_forall. }
    rewrite Hrs in Hseq. destruct (run_executables _ _ _ _ _ _ _ _); [done | done].
Qed.

End DispatchFacts.

(** ** Style signatures *)

Module StyleFacts.
Import Style PyFacts.

(** *** [sorted] *)

Lemma insert_sorted_perm x l : Py.insert_sorted x l ≡ₚ x :: l.
Proof.
  induction l as [|y l IH]; simpl; [done |].
  destruct (String.ltb x y); [done |]. rewrite IH. apply Permutation_swap.
Qed.

Lemma fold_insert_perm l acc :
  fold_left (fun acc x => Py.insert_sorted x acc) l acc ≡ₚ l ++ acc.
Proof.
  revert acc. induction l as [|x l IH]; intros acc; simpl; [done |].
  rewrite IH, insert_sorted_perm. by rewrite Permutation_middle.
Qed.

Lemma sorted_perm l : Py.sorted l ≡ₚ l.
Proof. unfold Py.sorted. by rewrite fold_insert_perm, app_nil_r. Qed.

Lemma ltb_le x y : String.ltb x y = true → String.le x y.
Proof.
  unfold String.ltb, String.le, String.leb.
  destruct (String.compare x y); done.
Qed.

Lemma ltb_ge x y : String.ltb x y = false → String.le y x.
Proof.
  intros H. destruct (total String.le x y) as [Hxy | Hyx]; [| done].
  unfold String.ltb in H. unfold String.le, String.leb in *.
  rewrite String.compare_antisym.
  destruct (String.compare x y) eqn:E; simpl; try done.
Qed.

Lemma insert_sorted_Sorted x l :
  Sorted String.le l → Sorted String.le (Py.insert_sorted x l).
Proof.
  induction 1 as [|y l Hl IH Hy]; simpl; [by repeat constructor |].
  destruct (String.ltb x y) eqn:E.
  - constructor; [by constructor |]. constructor. by apply ltb_le.
  - constructor; [done |].
    destruct Hy as [|z l Hz]; simpl.
    + constructor. by apply ltb_ge.
    + destruct (String.ltb x z); constructor; [by apply ltb_ge | done].
Qed.

Lemma sorted_Sorted l : Sorted String.le (Py.sorted l).
Proof.
  unfold Py.sorted.
  assert (∀ acc, Sorted String.le acc →
            Sorted String.le (fold_left (fun acc x => Py.insert_sorted x acc) l acc)) as H.
  { induction l as [|x l IH]; intros acc Hacc; simpl; [done |].
    by apply IH, insert_sorted_Sorted. }
  apply H. constructor.
Qed.

(** [sorted] forgets the order of its argument. *)
Lemma sorted_ext l k : l ≡ₚ k → Py.sorted l = Py.sorted k.
Proof.
  intros H. apply (Sorted_unique String.le); try apply sorted_Sorted.
  by rewrite !sorted_perm.
Qed.

(** *** Styles as values *)

(** A dict has every key once, at every level. *)
#[local] Unset Elimination Schemes.
Inductive wf : value → Prop :=
| wf_bool b : wf (VBool b)
| wf_int n : wf (VInt n)
| wf_str s : wf (VStr s)
| wf_style items :
    NoDup (keys items) → Forall (fun kv => wf kv.2) items → wf (VStyle items).

(** The same option set with the same values, whatever the order of
    the options at any level: every key is absent from both styles or
    bound in both, to the same bool, integer or text, or to nested
    styles that are the same in this sense. *)
Inductive same : value → value → Prop :=
| same_bool b : same (VBool b) (VBool b)
| same_int n : same (VInt n) (VInt n)
| same_str s : same (VStr s) (VStr s)
| same_nested items items' :
    (∀ key, option_Forall2 same (od_get key items) (od_get key items')) →
    same (VStyle items) (VStyle items').
#[local] Set Elimination Schemes.

Lemma od_get_Some {B} key (items : list (string * B)) v :
  od_get key items = Some v → (key, v) ∈ items.
Proof.
  induction items as [|[k w] items IH]; simpl; [done |].
  destruct (String.eqb_spec k key) as [-> | Hne].
  - intros [= ->]. by left.
  - intros H. right. by apply IH.
Qed.

Lemma od_get_is_Some {B} key (items : list (string * B)) :
  is_Some (od_get key items) ↔ key ∈ keys items.
Proof.
  unfold keys. induction items as [|[k w] items IH]; simpl.
  - split; [by intros [? ?] | by intros ?%elem_of_nil].
  - destruct (String.eqb_spec k key) as [-> | Hne].
    + split; [intros _; by left | eauto].
    + rewrite IH. split; [by right | by intros [?|?]%elem_of_cons].
Qed.

Lemma od_get_map {B C} (f : B → C) key (items : list (string * B)) :
  od_get key (map (fun kv => let '(k, w) := kv in (k, f w)) items)
  = f <$> od_get key items.
Proof.
  induction items as [|[k w] items IH]; simpl; [done |].
  by destruct (String.eqb k key).
Qed.

Lemma keys_map {B C} (f : B → C) (items : list (string * B)) :
  keys (map (fun kv => let '(k, w) := kv in (k, f w)) items) = keys items.
Proof.
  unfold keys. induction items as [|[k w] items IH]; simpl; [done |]. by rewrite IH.
Qed.

Lemma same_keys items items' :
  NoDup (keys items) → NoDup (keys items') →
  (∀ key, option_Forall2 same (od_get key items) (od_get key items')) →
  keys items ≡ₚ keys items'.
Proof.
  intros Hnd Hnd' Hsame. apply NoDup_Permutation; [done | done |].
  intros key. rewrite <- !od_get_is_Some.
  destruct (Hsame key); split; intros [? ?]; done || eauto.
Qed.

(** Styles that are the same have the same signature. *)
Lemma same_render a b : wf a → wf b → same a b → render a = render b.
Proof.
  revert b. induction a as [b0 | n | s | items IH] using value_ind;
    intros b Ha Hb Hab; inversion Hab as [| | |? items' Hsame]; subst; try done.
  inversion Ha as [| | |? Hnd Hwf]; subst. inversion Hb as [| | |? Hnd' Hwf']; subst.
  cbn [render]. apply (f_equal (fun x => "{" +:+ Py.join ", " x +:+ "}")).
  unfold fragments.
  rewrite !keys_map, (sorted_ext _ _ (same_keys _ _ Hnd Hnd' Hsame)).
  apply map_ext. intros key. do 2 f_equal. rewrite !od_get_map.
  pose proof (Hsame key) as Hk.
  destruct (od_get key items) as [v|] eqn:E; destruct (od_get key items') as [v'|] eqn:E';
    inversion Hk as [? ? Hv |]; subst; [| done]. simpl.
  apply od_get_Some in E, E'.
  rewrite Forall_forall in IH, Hwf, Hwf'.
  apply (IH _ E); [by apply (Hwf _ E) | by apply (Hwf' _ E') | done].
Qed.

(** *** Reading a signature back *)

(** The characters that structure a signature. *)
Definition is_syntax (c : ascii) : bool :=
  existsb (Ascii.eqb c) ["{"; "}"; ","; ":"]%char.

(** Text without any of them. *)
Fixpoint plain (s : string) : bool :=
  match s with
  | EmptyString => true
  | String c r => negb (is_syntax c) && plain r
  end.

(** What may follow a rendered value inside a signature: nothing, a
    comma or a closing brace. *)
Definition closed (r : string) : Prop :=
  match r with
  | EmptyString => True
  | String c _ => c = ","%char ∨ c = "}"%char
  end.

Lemma append_assoc a b c : (a +:+ b) +:+ c = a +:+ (b +:+ c).
Proof. induction a as [|x a IH]; [done |]. by rewrite !append_cons, IH. Qed.

Lemma plain_app a b : plain (a +:+ b) = plain a && plain b.
Proof.
  induction a as [|x a IH]; [done |]. rewrite append_cons. simpl.
  rewrite IH. by rewrite andb_assoc.
Qed.

Lemma plain_split a1 a2 r1 r2 :
  plain a1 = true → plain a2 = true → closed r1 → closed r2 →
  a1 +:+ r1 = a2 +:+ r2 → a1 = a2 ∧ r1 = r2.
Proof.
  revert a2. induction a1 as [|c a1 IH]; intros [|c' a2] H1 H2 C1 C2;
    rewrite ?append_cons, ?append_nil; intros E.
  - done.
  - subst r1. simpl in *. apply andb_true_iff in H2 as [Hc _].
    destruct C1 as [-> | ->]; done.
  - subst r2. simpl in *. apply andb_true_iff in H1 as [Hc _].
    destruct C2 as [-> | ->]; done.
  - injection E as -> E. simpl in *.
    apply andb_true_iff in H1 as [_ H1]. apply andb_true_iff in H2 as [_ H2].
    destruct (IH a2 H1 H2 C1 C2 E) as [-> ->]. done.
Qed.

Lemma key_split k1 k2 r1 r2 :
  plain k1 = true → plain k2 = true →
  k1 +:+ String ":" r1 = k2 +:+ String ":" r2 → k1 = k2 ∧ r1 = r2.
Proof.
  revert k2. induction k1 as [|c k1 IH]; intros [|c' k2] H1 H2;
    rewrite ?append_cons, ?append_nil; intros E.
  - by injection E as ->.
  - injection E as <- _. simpl in H2. done.
  - injection E as -> _. simpl in H1. done.
  - injection E as -> E. simpl in *.
    apply andb_true_iff in H1 as [_ H1]. apply andb_true_iff in H2 as [_ H2].
    destruct (IH k2 H1 H2 E) as [-> ->]. done.
Qed.

(** A rendered value that is plain, followed by what may follow it,
    does not begin like a nested style. *)
Lemma plain_not_brace a r r' :
  plain a = true → closed r → a +:+ r ≠ String "{" r'.
Proof.
  destruct a as [|c a]; rewrite ?append_cons, ?append_nil; intros Ha Hr E.
  - subst r. by destruct Hr.
  - injection E as -> _. done.
Qed.

(** Styles whose signature can be read back: every key once, no
    structuring character in any key or text value, and every text
    value in the normal form of [typeconv], which reads as neither a
    boolean nor a number. *)
#[local] Unset Elimination Schemes.
Inductive good : value → Prop :=
| good_bool b : good (VBool b)
| good_int n : good (VInt n)
| good_str s : plain s = true → typeconv_val (VStr s) = VStr s → good (VStr s)
| good_style items :
    NoDup (keys items) →
    Forall (fun kv => plain kv.1 = true ∧ good kv.2) items →
    good (VStyle items).
#[local] Set Elimination Schemes.

Lemma good_wf v : good v → wf v.
Proof.
  induction v as [| | | items IH] using value_ind; intros Hv; try constructor;
    inversion Hv as [| | |? Hnd Hall]; subst; [done |].
  rewrite Forall_forall in *. intros kv Hkv. apply (IH kv Hkv). by apply Hall.
Qed.

Lemma plain_digits d : plain (NilEmpty.string_of_uint d) = true.
Proof. induction d; simpl; done. Qed.

Lemma plain_number neg d : plain (number_text neg d false) = true.
Proof.
  unfold number_text. rewrite !plain_app, plain_digits. by destruct neg.
Qed.

Definition is_atom (v : value) : Prop :=
  match v with VStyle _ => False | _ => True end.

Lemma re_number_match_str n : re_number_match (Py.str_of_int n) = true.
Proof.
  destruct (str_of_int_number n) as (neg & d & Hd & -> & _).
  by apply re_number_match_render.
Qed.

Lemma typeconv_val_number s :
  re_number_match s = true → typeconv_val (VStr s) ≠ VStr s.
Proof.
  intros Hm. unfold typeconv_val.
  destruct (String.eqb s "true"); [done |].
  destruct (String.eqb s "false"); [done |]. rewrite Hm.
  apply re_number_match_inv in Hm as (neg & d & nl & Hd & ->).
  by rewrite int_of_string_render.
Qed.

Lemma atom_plain v : good v → is_atom v → plain (render v) = true.
Proof.
  intros Hv Ha. destruct v as [[] | n | s | items]; simpl; try done.
  - destruct (str_of_int_number n) as (neg & d & Hd & -> & _). apply plain_number.
  - by inversion Hv.
Qed.

Lemma atom_inj v w :
  good v → good w → is_atom v → is_atom w → render v = render w → v = w.
Proof.
  intros Hv Hw Av Aw E.
  destruct v as [b | n | s | ?]; [| | | done];
    destruct w as [b' | n' | s' | ?]; try done; simpl in E.
  - by destruct b, b'.
  - pose proof (re_number_match_str n') as Hm. rewrite <- E in Hm. by destruct b.
  - inversion Hw as [| |? _ Hn|]; subst. by destruct b.
  - pose proof (re_number_match_str n) as Hm. rewrite E in Hm. by destruct b'.
  - f_equal. pose proof (int_of_string_str n) as Hn. rewrite E, int_of_string_str in Hn.
    by injection Hn.
  - inversion Hw as [| |? _ Hn|]; subst. destruct (typeconv_val_number _ (re_number_match_str n) Hn).
  - inversion Hv as [| |? _ Hn|]; subst. by destruct b'.
  - inversion Hv as [| |? _ Hn|]; subst.
    destruct (typeconv_val_number _ (re_number_match_str n') Hn).
  - by subst.
Qed.

(** The items of a style in the order of the signature. *)
Definition sorted_items (items : list (string * value)) : list (string * value) :=
  omap (fun key => (fun v => (key, v)) <$> od_get key items) (Py.sorted (keys items)).

Definition fragment (kv : string * value) : string :=
  kv.1 +:+ ": " +:+ render kv.2.

(** A signature from its first item on, and from the separator before
    a later item on; [r] is what follows the signature. *)
Fixpoint tail (l : list (string * value)) (r : string) : string :=
  match l with
  | [] => "}" +:+ r
  | kv :: l' => ", " +:+ fragment kv +:+ tail l' r
  end.

Definition body (l : list (string * value)) (r : string) : string :=
  match l with
  | [] => "}" +:+ r
  | kv :: l' => fragment kv +:+ tail l' r
  end.

Lemma fragments_sorted_items items :
  fragments (map (fun kv => let '(k, w) := kv in (k, render w)) items)
  = fragment <$> sorted_items items.
Proof.
  unfold fragments, sorted_items. rewrite keys_map.
  assert (Forall (fun key => key ∈ keys items) (Py.sorted (keys items))) as Hin.
  { apply Forall_forall. intros key Hkey. by rewrite sorted_perm in Hkey. }
  induction Hin as [|key ks Hkey _ IH]; [done |].
  cbn [map omap list_omap]. rewrite od_get_map.
  apply od_get_is_Some in Hkey as [v Hv]. rewrite Hv. simpl. rewrite IH. done.
Qed.

Lemma join_tail kv l r :
  Py.join ", " (fragment <$> kv :: l) +:+ "}" +:+ r = fragment kv +:+ tail l r.
Proof.
  revert kv. induction l as [|kv' l IH]; intros kv; [done |].
  specialize (IH kv'). cbn [fmap list_fmap] in *. unfold Py.join in *.
  cbn [String.concat] in *. cbn [tail]. rewrite <- IH.
  by rewrite !append_assoc.
Qed.

Lemma render_style_body items r :
  render (VStyle items) +:+ r = "{" +:+ body (sorted_items items) r.
Proof.
  cbn [render]. rewrite fragments_sorted_items, !append_assoc. f_equal.
  destruct (sorted_items items) as [|kv l]; [done |]. apply join_tail.
Qed.

Lemma elem_of_cons_ne (key k : string) ks : k ≠ key → key ∈ k :: ks ↔ key ∈ ks.
Proof.
  intros Hne. rewrite elem_of_cons. split; [| by right].
  intros [-> | Hin]; [by destruct Hne | exact Hin].
Qed.

Lemma od_get_sorted_items key items :
  od_get key (sorted_items items) = od_get key items.
Proof.
  unfold sorted_items.
  assert (∀ ks, od_get key (omap (fun k => (fun v => (k, v)) <$> od_get k items) ks)
                = if bool_decide (key ∈ ks) then od_get key items else None) as Hks.
  { induction ks as [|k ks IH]; [done |]. cbn [omap list_omap].
    destruct (od_get k items) as [v|] eqn:Ek; simpl.
    - destruct (String.eqb_spec k key) as [-> | Hne].
      + rewrite bool_decide_true by left. done.
      + rewrite IH.
        by rewrite (bool_decide_ext _ _ (elem_of_cons_ne key k ks Hne)).
    - rewrite IH. destruct (decide (k = key)) as [-> | Hne].
      + rewrite Ek. by destruct (bool_decide _), (bool_decide _).
      + by rewrite (bool_decide_ext _ _ (elem_of_cons_ne key k ks Hne)). }
  rewrite Hks. case_bool_decide as Hin; [done |].
  rewrite sorted_perm in Hin. symmetry. apply eq_None_not_Some.
  by rewrite od_get_is_Some.
Qed.

Lemma sorted_items_elem kv items : kv ∈ sorted_items items → kv ∈ items.
Proof.
  unfold sorted_items. intros (key & _ & Hkv)%list_elem_of_omap.
  destruct (od_get key items) as [v|] eqn:E; [| done].
  injection Hkv as <-. by apply od_get_Some.
Qed.

(** Reading back one value: a signature fixes the value it renders up
    to the order of the options, and what follows it. *)
Definition readable (v : value) : Prop :=
  ∀ w r r', good w → closed r → closed r' →
            render v +:+ r = render w +:+ r' → same v w ∧ r = r'.

Definition items_agree (l l' : list (string * value)) : Prop :=
  Forall2 (fun kv kv' => kv.1 = kv'.1 ∧ same kv.2 kv'.2) l l'.

Lemma closed_tail l r : closed (tail l r).
Proof. destruct l; [by right | by left]. Qed.

Lemma fragment_split kv kv' r r' :
  plain kv.1 = true → plain kv'.1 = true → readable kv.2 → good kv'.2 →
  closed r → closed r' →
  fragment kv +:+ r = fragment kv' +:+ r' →
  kv.1 = kv'.1 ∧ same kv.2 kv'.2 ∧ r = r'.
Proof.
  intros Hk Hk' Hread Hgood Hr Hr'. unfold fragment.
  rewrite !append_assoc. rewrite !(append_cons ":"), !append_cons, !append_nil.
  intros E. apply key_split in E as [Ekey E]; [| done | done].
  injection E as E. destruct (Hread _ _ _ Hgood Hr Hr' E) as [Hsame ->]. done.
Qed.

Lemma tail_split l l' r r' :
  Forall (fun kv => plain kv.1 = true ∧ readable kv.2) l →
  Forall (fun kv => plain kv.1 = true ∧ good kv.2) l' →
  tail l r = tail l' r' → items_agree l l' ∧ r = r'.
Proof.
  intros Hl. revert l'. induction Hl as [|kv l [Hk Hread] _ IH];
    intros l' Hl'; destruct Hl' as [|kv' l' [Hk' Hgood] Hl']; cbn [tail].
  - rewrite !append_cons, !append_nil. intros [= ->]. by split; [constructor |].
  - rewrite !append_cons, !append_nil. intros [=].
  - rewrite !append_cons, !append_nil. intros [=].
  - rewrite !(append_cons ","), !append_cons, !append_nil. intros [= E].
    apply fragment_split in E as (Ekey & Hsame & E);
      [| done | done | done | done | apply closed_tail | apply closed_tail].
    destruct (IH l' Hl' E) as [Hagree ->]. split; [by constructor | done].
Qed.

Lemma plain_head_fragment kv r r' :
  plain kv.1 = true → fragment kv +:+ r ≠ String "}" r'.
Proof.
  unfold fragment. destruct kv as [[|c k] v]; simpl;
    rewrite ?append_assoc, ?append_cons, ?append_nil; intros Hk E; [done |].
  injection E as -> _. done.
Qed.

Lemma body_split l l' r r' :
  Forall (fun kv => plain kv.1 = true ∧ readable kv.2) l →
  Forall (fun kv => plain kv.1 = true ∧ good kv.2) l' →
  body l r = body l' r' → items_agree l l' ∧ r = r'.
Proof.
  intros Hl Hl'. destruct Hl as [|kv l [Hk Hread] Hl];
    destruct Hl' as [|kv' l' [Hk' Hgood] Hl']; cbn [body].
  - rewrite !append_cons, !append_nil. intros [= ->]. by split; [constructor |].
  - rewrite append_cons, append_nil. intros E. symmetry in E.
    by apply plain_head_fragment in E.
  - rewrite (append_cons "}"), append_nil. intros E. by apply plain_head_fragment in E.
  - intros E. apply fragment_split in E as (Ekey & Hsame & E);
      [| done | done | done | done | apply closed_tail | apply closed_tail].
    destruct (tail_split l l' r r' Hl Hl' E) as [Hagree ->].
    split; [by constructor | done].
Qed.

Lemma items_agree_lookup l l' key :
  items_agree l l' → option_Forall2 same (od_get key l) (od_get key l').
Proof.
  induction 1 as [|[k v] [k' v'] l l' [Hk Hv] _ IH]; simpl in *; [constructor |].
  subst k'. destruct (String.eqb k key); [by constructor | done].
Qed.

(** Every good value can be read back. *)
Lemma good_readable v : good v → readable v.
Proof.
  induction v as [b | n | s | items IH] using value_ind; intros Hv w r r' Hw Hr Hr' E.
  1-3: destruct w as [| | | items'];
    [| | | rewrite (render_style_body items'), append_cons, append_nil in E;
           by apply plain_not_brace in E; [| apply atom_plain |]];
    apply plain_split in E as [E ->]; try done; try (by apply atom_plain);
    apply atom_inj in E; try done; simplify_eq; by split; [constructor |].
  destruct w as [b | n | s | items'];
    [rewrite (render_style_body items), append_cons, append_nil in E; symmetry in E;
     by apply plain_not_brace in E; [| apply atom_plain |] .. |].
  rewrite !render_style_body, !append_cons, !append_nil in E. injection E as E.
  inversion Hv as [| | |? Hnd Hall]; subst. inversion Hw as [| | |? Hnd' Hall']; subst.
  apply body_split in E as [Hagree ->].
  - split; [| done]. constructor. intros key.
    rewrite <- (od_get_sorted_items key items), <- (od_get_sorted_items key items').
    by apply items_agree_lookup.
  - rewrite Forall_forall in *. intros kv Hkv%sorted_items_elem.
    split; [by apply Hall | apply (IH kv Hkv)]. by apply Hall.
  - rewrite Forall_forall in *. intros kv Hkv%sorted_items_elem. by apply Hall'.
Qed.

Definition same_style (a b : style) : Prop := same (VStyle a) (VStyle b).

(** Claim C2, as amended.  Two styles with the same option set and the same
    values, in whatever order at each level, have the same signature.
    Two styles with the same signature have the same option set with
    the same values provided that in both no option name and no text
    value holds one of the characters that structure a signature
    (braces, comma, colon) and no text value reads as a boolean or as
    an integer. *)
Theorem normrepr_signature (a b : style) :
  (wf (VStyle a) → wf (VStyle b) → same_style a b → normrepr a = normrepr b) ∧
  (good (VStyle a) → good (VStyle b) → normrepr a = normrepr b → same_style a b).
Proof.
  split.
  - intros Ha Hb Hab. by apply same_render.
  - intros Ha Hb E. unfold normrepr in E.
    apply (good_readable _ Ha (VStyle b) "" "" Hb I I). by rewrite !append_nil_r.
Qed.

Definition style_ab : style := [("a", VStr "x"); ("b", VStr "y")].
Definition style_ba : style := [("b", VStr "y"); ("a", VStr "x")].

Lemma good_style_ab : good (VStyle style_ab).
Proof.
  constructor.
  - by apply (bool_decide_unpack _).
  - repeat constructor.
Qed.

Lemma good_style_ba : good (VStyle style_ba).
Proof.
  constructor.
  - by apply (bool_decide_unpack _).
  - repeat constructor.
Qed.

Lemma same_style_ab_ba : same_style style_ab style_ba.
Proof.
  constructor. intros key. unfold style_ab, style_ba. cbn [od_get].
  destruct (String.eqb_spec "a" key), (String.eqb_spec "b" key);
    try (subst; discriminate); repeat constructor.
Qed.

Lemma normrepr_signature_witness :
  (wf (VStyle style_ab) ∧ wf (VStyle style_ba) ∧ same_style style_ab style_ba
   ∧ normrepr style_ab = normrepr style_ba) ∧
  (good (VStyle style_ab) ∧ good (VStyle style_ba)
   ∧ normrepr style_ab = normrepr style_ba ∧ same_style style_ab style_ba).
Proof.
  pose proof good_style_ab as Ha. pose proof good_style_ba as Hb.
  split.
  - split_and!; [by apply good_wf | by apply good_wf | apply same_style_ab_ba |].
    apply (proj1 (normrepr_signature style_ab style_ba));
      [by apply good_wf | by apply good_wf | apply same_style_ab_ba].
  - split_and!; [done | done | reflexivity |].
    apply (proj2 (normrepr_signature style_ab style_ba)); [done | done | reflexivity].
Defined.

(** Claim C2 fails as stated: a text value that holds a comma and a colon
    gives a style with one option the signature of a style with two. *)
Lemma normrepr_not_injective :
  let a : style := [("a", VStr "x, b: y")] in
  let b : style := [("a", VStr "x"); ("b", VStr "y")] in
  wf (VStyle a) ∧ wf (VStyle b) ∧ normrepr a = normrepr b ∧ ¬ same_style a b.
Proof.
  split_and!.
  - constructor; [by apply (bool_decide_unpack _) | repeat constructor].
  - constructor; [by apply (bool_decide_unpack _) | repeat constructor].
  - reflexivity.
  - intros H. inversion H as [| | |? ? Hkeys]; subst.
    specialize (Hkeys "b"). inversion Hkeys.
Qed.

End StyleFacts.

(** ** The average line lengths in double precision *)

Module LinelengthFacts.
Import Exe Linelength.

(** *** Binary digits and shifts *)

Lemma digits2_size p : digits2_pos p = Pos.size p.
Proof. induction p as [p IH|p IH|]; simpl; by rewrite ?IH. Qed.

Lemma Zdigits2_log2 m : 0 < m → Zdigits2 m = Z.log2 m + 1.
Proof.
  destruct m as [|p|p]; try lia. intros _. simpl. rewrite digits2_size.
  destruct p; simpl; lia.
Qed.

Lemma Zdigits2_spec m : 0 < m → 2 ^ (Zdigits2 m - 1) ≤ m < 2 ^ Zdigits2 m.
Proof.
  intros Hm. rewrite (Zdigits2_log2 m Hm).
  replace (Z.log2 m + 1 - 1) with (Z.log2 m) by lia.
  replace (Z.log2 m + 1) with (Z.succ (Z.log2 m)) by lia. by apply Z.log2_spec.
Qed.

Lemma Zdigits2_unique m d : 0 < m → 2 ^ (d - 1) ≤ m < 2 ^ d → Zdigits2 m = d.
Proof.
  intros Hm H. rewrite (Zdigits2_log2 m Hm).
  assert (0 < d).
  { destruct (Z.le_gt_cases d 0) as [Hd|]; [| done].
    destruct (Z.eq_dec d 0) as [-> | Hne]; [simpl in H; lia |].
    rewrite (Z.pow_neg_r 2 d) in H by lia. lia. }
  rewrite (Z.log2_unique m (d - 1)); [lia | lia |].
  replace (Z.succ (d - 1)) with d by lia. done.
Qed.

Lemma shr_1_m r : 0 ≤ shr_m r → shr_m (shr_1 r) = shr_m r / 2.
Proof.
  destruct r as [m r s]. simpl. intros Hm.
  destruct m as [|p|p]; [done | | lia].
  destruct p as [p|p|]; simpl.
  - apply (Z.div_unique _ _ _ 1); lia.
  - apply (Z.div_unique _ _ _ 0); lia.
  - done.
Qed.

Lemma shr_m_iter p r :
  0 ≤ shr_m r → shr_m (SpecFloat.iter_pos shr_1 p r) = shr_m r / 2 ^ Zpos p.
Proof.
  revert r. induction p as [p IH|p IH|]; intros r Hr; cbn [SpecFloat.iter_pos].
  - assert (0 ≤ shr_m (shr_1 r)) as H1 by (rewrite shr_1_m by done; apply Z.div_pos; lia).
    assert (0 ≤ shr_m (SpecFloat.iter_pos shr_1 p (shr_1 r))) as H2
      by (rewrite IH by done; apply Z.div_pos; lia).
    rewrite IH, IH, shr_1_m by done.
    assert (0 < 2 ^ Zpos p) by (apply Z.pow_pos_nonneg; lia).
    rewrite !Z.div_div by lia. f_equal.
    replace (Z.pos p~1) with (Zpos p + Zpos p + 1) by lia.
    rewrite !Z.pow_add_r by lia. lia.
  - assert (0 ≤ shr_m (SpecFloat.iter_pos shr_1 p r)) as H2
      by (rewrite IH by done; apply Z.div_pos; lia).
    rewrite IH, IH by done.
    assert (0 < 2 ^ Zpos p) by (apply Z.pow_pos_nonneg; lia).
    rewrite !Z.div_div by lia. f_equal.
    replace (Z.pos p~0) with (Zpos p + Zpos p) by lia.
    rewrite !Z.pow_add_r by lia. lia.
  - by apply shr_1_m.
Qed.

Lemma fexp_normal e : -1021 ≤ e → fexp prec emax e = e - 53.
Proof. unfold fexp, emin, prec, emax. lia. Qed.

Lemma shr_m_of_loc m l : shr_m (shr_record_of_loc m l) = m.
Proof. by destruct l as [|[]]. Qed.

Lemma loc_of_shr_record_of_loc m l : loc_of_shr_record (shr_record_of_loc m l) = l.
Proof. by destruct l as [|[]]. Qed.

(** The first component of [shr_fexp]: the mantissa loses the digits
    beyond the precision, the exponent grows by as many. *)
Lemma shr_fexp_spec mx ex lx n :
  0 < mx → n = fexp prec emax (Zdigits2 mx + ex) - ex →
  (n ≤ 0 ∧ shr_fexp prec emax mx ex lx = (shr_record_of_loc mx lx, ex)) ∨
  (0 < n ∧ ∃ r, shr_fexp prec emax mx ex lx = (r, ex + n) ∧ shr_m r = mx / 2 ^ n).
Proof.
  intros Hm Hn. unfold shr_fexp, shr. rewrite <- Hn. destruct n as [|p|p] eqn:E.
  - left. split; [lia | done].
  - right. split; [lia |]. eexists. split; [done |].
    rewrite shr_m_iter; rewrite shr_m_of_loc; [done | lia].
  - left. split; [lia | done].
Qed.

Lemma round_nearest_even_cases m l :
  (round_nearest_even m l = m ∨ round_nearest_even m l = m + 1) ∧
  (l = loc_Exact → round_nearest_even m l = m).
Proof.
  split; [| by intros ->].
  destruct l as [|[]]; simpl; try destruct (Z.even m); auto.
Qed.

Lemma pow2_pos e : 0 ≤ e → 0 < 2 ^ e.
Proof. intros. apply Z.pow_pos_nonneg; lia. Qed.

(** Rounding a mantissa of at least 53 digits, away from the ends of
    the exponent range: the result is a normal number, its mantissa the
    mantissa cut to 53 digits or its successor. *)
Lemma binary_round_aux_spec s mx ex lx :
  0 < mx → 53 ≤ Zdigits2 mx →
  let D := Zdigits2 mx + ex in
  -1021 ≤ D ≤ 1000 →
  let q := mx / 2 ^ (D - 53 - ex) in
  ∃ m e,
    binary_round_aux prec emax s mx ex lx = S754_finite s m e ∧
    Zdigits2 (Zpos m) = 53 ∧
    ((e = D - 53 ∧ (Zpos m = q ∨ Zpos m = q + 1)) ∨
     (e = D - 52 ∧ Zpos m = 2 ^ 52 ∧ q + 1 = 2 ^ 53)) ∧
    (lx = loc_Exact → Zdigits2 mx = 53 → Zpos m = mx ∧ e = ex).
Proof.
  intros Hm Hd D HD q.
  set (n := D - 53 - ex). assert (0 ≤ n) as Hn by (unfold n, D; lia).
  pose proof (Zdigits2_spec mx Hm) as Hmx.
  assert (2 ^ 52 ≤ q < 2 ^ 53) as Hq.
  { unfold q. fold n. pose proof (pow2_pos n Hn).
    replace (Zdigits2 mx - 1) with (52 + n) in Hmx by (unfold n, D; lia).
    replace (Zdigits2 mx) with (53 + n) in Hmx by (unfold n, D; lia).
    rewrite !Z.pow_add_r in Hmx by lia. split.
    - apply Z.div_le_lower_bound; lia.
    - apply Z.div_lt_upper_bound; lia. }
  assert (fexp prec emax (Zdigits2 mx + ex) = D - 53) as Hfexp
    by (fold D; apply fexp_normal; lia).
  assert (∃ r1, shr_fexp prec emax mx ex lx = (r1, D - 53) ∧ shr_m r1 = q ∧
                (lx = loc_Exact → n = 0 → loc_of_shr_record r1 = loc_Exact)) as (r1 & E1 & Hr1 & Hex1).
  { destruct (shr_fexp_spec mx ex lx n Hm) as [[Hle E]|[Hlt (r & E & Hr)]];
      [unfold n; lia | |].
    - assert (n = 0) as Hn0 by lia.
      exists (shr_record_of_loc mx lx). rewrite E. split_and!.
      + f_equal. unfold n in Hn0. lia.
      + rewrite shr_m_of_loc. unfold q. fold n. rewrite Hn0. simpl. by rewrite Z.div_1_r.
      + intros -> _. done.
    - exists r. split_and!.
      + rewrite E. f_equal. unfold n. lia.
      + done.
      + intros _ Hn0. lia. }
  unfold binary_round_aux. rewrite E1.
  set (m2 := round_nearest_even (shr_m r1) (loc_of_shr_record r1)).
  destruct (round_nearest_even_cases (shr_m r1) (loc_of_shr_record r1)) as [Hm2 Hm2ex].
  fold m2 in Hm2, Hm2ex. rewrite Hr1 in Hm2, Hm2ex.
  assert (0 < m2) as Hm2pos by lia.
  destruct (Z.eq_dec m2 (2 ^ 53)) as [Hbig | Hsmall].
  - (* the rounded mantissa has 54 digits: one more shift *)
    assert (Zdigits2 m2 = 54) as Hd2.
    { apply Zdigits2_unique; [done |]. rewrite Hbig. simpl. lia. }
    destruct (shr_fexp_spec m2 (D - 53) loc_Exact 1 Hm2pos) as [[Hle E]|[Hlt (r & E & Hr)]];
      [rewrite Hd2, fexp_normal by lia; lia | lia |].
    rewrite E. replace (D - 53 + 1) with (D - 52) by lia.
    rewrite Hr, Hbig. change (2 ^ 53 / 2 ^ 1) with (Zpos 4503599627370496).
    replace (D - 52 <=? emax - prec) with true by (symmetry; apply Z.leb_le; unfold emax, prec; lia).
    eexists _, _. split_and!; [done | done | | ].
    + right. split_and!; [done | done | lia].
    + intros Hx Hd53.
      assert (n = 0) as Hn0 by (unfold n, D; lia). specialize (Hex1 Hx Hn0).
      rewrite Hex1 in Hm2ex. specialize (Hm2ex eq_refl). lia.
  - assert (Zdigits2 m2 = 53) as Hd2.
    { apply Zdigits2_unique; [done |]. change (53 - 1) with 52. lia. }
    destruct (shr_fexp_spec m2 (D - 53) loc_Exact 0 Hm2pos) as [[Hle E]|[Hlt (r & E & Hr)]];
      [rewrite Hd2, fexp_normal by lia; lia | | lia].
    rewrite E. simpl shr_m.
    destruct m2 as [|p2|p2] eqn:Ep; [lia | | lia].
    replace (D - 53 <=? emax - prec) with true by (symmetry; apply Z.leb_le; unfold emax, prec; lia).
    eexists _, _. split_and!; [done | done | | ].
    + left. split; [done | lia].
    + intros Hx Hd53.
      assert (n = 0) as Hn0 by (unfold n, D; lia). specialize (Hex1 Hx Hn0).
      rewrite Hex1 in Hm2ex. specialize (Hm2ex eq_refl).
      split; [| unfold n, D in Hn0; lia].
      rewrite Hm2ex. unfold q. fold n. rewrite Hn0. simpl. by rewrite Z.div_1_r.
Qed.

(** *** The numbers the floats stand for *)

Definition pow2 (e : Z) : R := powerRZ 2 e.

Lemma pow2_add a b : pow2 (a + b) = (pow2 a * pow2 b)%R.
Proof. apply powerRZ_add. lra. Qed.

Lemma pow2_gt0 e : (0 < pow2 e)%R.
Proof. apply powerRZ_lt. lra. Qed.

Lemma pow2_IZR n : 0 ≤ n → pow2 n = IZR (2 ^ n).
Proof.
  intros Hn. destruct n as [|p|p]; [done | | lia].
  unfold pow2. change (2 ^ Z.pos p) with (Z.pow_pos 2 p). by rewrite Zpower_pos_powerRZ.
Qed.

Lemma pow2_le a b : a ≤ b → (pow2 a <= pow2 b)%R.
Proof.
  intros Hab. replace b with (a + (b - a)) by lia. rewrite pow2_add.
  rewrite (pow2_IZR (b - a)) by lia.
  assert (1 <= IZR (2 ^ (b - a)))%R as H.
  { apply IZR_le. pose proof (pow2_pos (b - a)). lia. }
  pose proof (pow2_gt0 a). nra.
Qed.

(** The absolute value of a finite float. *)
Definition magnitude (m : positive) (e : Z) : R := (IZR (Zpos m) * pow2 e)%R.

Lemma magnitude_gt0 m e : (0 < magnitude m e)%R.
Proof.
  unfold magnitude. apply Rmult_lt_0_compat; [by apply IZR_lt | apply pow2_gt0].
Qed.

(** Rounding comes within one unit in the last place of a number that
    lies between the mantissa and its successor. *)
Lemma binary_round_aux_near s mx ex lx (X : R) :
  0 < mx → 53 ≤ Zdigits2 mx → -1021 ≤ Zdigits2 mx + ex ≤ 1000 →
  (IZR mx * pow2 ex <= X < IZR (mx + 1) * pow2 ex)%R →
  ∃ m e,
    binary_round_aux prec emax s mx ex lx = S754_finite s m e ∧
    Zdigits2 (Zpos m) = 53 ∧
    Zdigits2 mx + ex - 53 ≤ e ≤ Zdigits2 mx + ex - 52 ∧
    (Rabs (magnitude m e - X) <= pow2 (-52) * X)%R ∧
    (lx = loc_Exact → Zdigits2 mx = 53 → Zpos m = mx ∧ e = ex).
Proof.
  intros Hm Hd HD HX.
  destruct (binary_round_aux_spec s mx ex lx Hm Hd HD) as (m & e & E & Hdm & Hcases & Hexact).
  exists m, e. split_and!; [done | done | lia | lia | | done].
  set (D := Zdigits2 mx + ex) in *. set (n := D - 53 - ex) in *. set (q := mx / 2 ^ n) in *.
  assert (0 ≤ n) as Hn by (unfold n, D; lia).
  pose proof (pow2_pos n Hn) as Hpn.
  assert (q * 2 ^ n ≤ mx < (q + 1) * 2 ^ n) as Hq.
  { unfold q. pose proof (Z.mul_div_le mx (2 ^ n) Hpn).
    pose proof (Z.mul_succ_div_gt mx (2 ^ n) Hpn). lia. }
  set (P := pow2 (D - 53)).
  assert (pow2 ex * IZR (2 ^ n) = P)%R as HP.
  { unfold P. rewrite <- pow2_IZR, <- pow2_add by done. f_equal. unfold n. lia. }
  assert (0 < P)%R as HPpos by apply pow2_gt0.
  pose proof (pow2_gt0 ex) as Hex.
  assert (IZR q * P <= X < IZR (q + 1) * P)%R as [HXl HXu].
  { rewrite <- HP. split.
    - apply Rle_trans with (IZR mx * pow2 ex)%R; [| lra].
      replace (IZR q * (pow2 ex * IZR (2 ^ n)))%R with (IZR (q * 2 ^ n) * pow2 ex)%R
        by (rewrite mult_IZR; ring).
      apply Rmult_le_compat_r; [lra |]. apply IZR_le. lia.
    - apply Rlt_le_trans with (IZR (mx + 1) * pow2 ex)%R; [lra |].
      replace (IZR (q + 1) * (pow2 ex * IZR (2 ^ n)))%R with (IZR ((q + 1) * 2 ^ n) * pow2 ex)%R
        by (rewrite mult_IZR; ring).
      apply Rmult_le_compat_r; [lra |]. apply IZR_le. lia. }
  assert (∃ k, (k = q ∨ k = q + 1) ∧ magnitude m e = (IZR k * P)%R) as (k & Hk & ->).
  { unfold magnitude. destruct Hcases as [[-> Hmq]|(-> & -> & Hq1)].
    - exists (Zpos m). split; [lia | done].
    - exists (q + 1). split; [by right |]. rewrite Hq1. unfold P.
      replace (D - 52) with (1 + (D - 53)) by lia. rewrite pow2_add.
      rewrite (pow2_IZR 1) by lia. rewrite <- Rmult_assoc, <- mult_IZR. done. }
  assert (P <= pow2 (-52) * X)%R as HPX.
  { apply Rle_trans with (pow2 (-52) * (IZR mx * pow2 ex))%R;
      [| apply Rmult_le_compat_l; [pose proof (pow2_gt0 (-52)); lra | lra]].
    pose proof (Zdigits2_spec mx Hm) as [Hlow _].
    apply Rle_trans with (pow2 (-52) * (IZR (2 ^ (Zdigits2 mx - 1)) * pow2 ex))%R.
    - rewrite <- pow2_IZR, <- !pow2_add by lia. unfold P. apply pow2_le. unfold D. lia.
    - apply Rmult_le_compat_l; [pose proof (pow2_gt0 (-52)); lra |].
      apply Rmult_le_compat_r; [lra |]. by apply IZR_le. }
  apply Rle_trans with P; [| done].
  apply Rabs_le. rewrite plus_IZR in HXu.
  destruct Hk as [-> | ->]; [| rewrite plus_IZR]; lra.
Qed.

Lemma iter_xO_pow mx d : Zpos (Pos.iter xO mx d) = Zpos mx * 2 ^ Zpos d.
Proof.
  induction d as [|d IH] using Pos.peano_ind; [simpl; lia |].
  rewrite Pos.iter_succ, Pos2Z.inj_xO, IH, Pos2Z.inj_succ, Z.pow_succ_r by lia. lia.
Qed.

Lemma shl_align_spec mx ex ex' :
  ∃ mz ez, shl_align mx ex ex' = (mz, ez) ∧
    ((ex' < ex ∧ ez = ex' ∧ Zpos mz = Zpos mx * 2 ^ (ex - ex')) ∨
     (ex ≤ ex' ∧ ez = ex ∧ mz = mx)).
Proof.
  unfold shl_align. destruct (ex' - ex) as [|d|d] eqn:E.
  - exists mx, ex. split; [done |]. right. lia.
  - exists mx, ex. split; [done |]. right. lia.
  - eexists _, _. split; [done |]. left. split_and!; [lia | done |].
    rewrite iter_xO_pow. f_equal. f_equal. lia.
Qed.

Lemma Zdigits2_shift m k : 0 < m → 0 ≤ k → Zdigits2 (m * 2 ^ k) = Zdigits2 m + k.
Proof.
  intros Hm Hk. pose proof (Zdigits2_spec m Hm) as [Hl Hu]. pose proof (pow2_pos k Hk).
  assert (1 ≤ Zdigits2 m) by (rewrite Zdigits2_log2 by done; pose proof (Z.log2_nonneg m); lia).
  apply Zdigits2_unique; [nia |].
  replace (Zdigits2 m + k - 1) with (Zdigits2 m - 1 + k) by lia.
  rewrite !Z.pow_add_r by lia. nia.
Qed.

Lemma Zdigits2_pos_ge1 m : 0 < m → 1 ≤ Zdigits2 m.
Proof. intros. rewrite Zdigits2_log2 by done. pose proof (Z.log2_nonneg m). lia. Qed.

(** Rounding an integer multiple of a power of two: the result is a
    normal number within one unit in the last place, and the number
    itself when 53 digits hold it. *)
Lemma binary_round_near s mx ex :
  -1021 ≤ Zdigits2 (Zpos mx) + ex ≤ 1000 →
  ∃ m e,
    binary_round prec emax s mx ex = S754_finite s m e ∧
    Zdigits2 (Zpos m) = 53 ∧
    Zdigits2 (Zpos mx) + ex - 53 ≤ e ≤ Zdigits2 (Zpos mx) + ex - 52 ∧
    (Rabs (magnitude m e - magnitude mx ex) <= pow2 (-52) * magnitude mx ex)%R ∧
    (Zdigits2 (Zpos mx) ≤ 53 →
     magnitude m e = magnitude mx ex ∧ e = Zdigits2 (Zpos mx) + ex - 53).
Proof.
  intros HD. unfold binary_round.
  change (Zpos (digits2_pos mx)) with (Zdigits2 (Zpos mx)).
  rewrite fexp_normal by lia.
  pose proof (Zdigits2_pos_ge1 (Zpos mx) eq_refl) as Hd1.
  destruct (shl_align_spec mx ex (Zdigits2 (Zpos mx) + ex - 53))
    as (mz & ez & -> & [(Hlt & -> & Hmz)|(Hle & -> & ->)]).
  - (* fewer than 53 digits: the mantissa is filled up *)
    assert (Zdigits2 (Zpos mz) = 53) as Hdz.
    { rewrite Hmz, Zdigits2_shift by lia. lia. }
    destruct (binary_round_aux_near s (Zpos mz) (Zdigits2 (Zpos mx) + ex - 53) loc_Exact
                (magnitude mz (Zdigits2 (Zpos mx) + ex - 53)))
      as (m & e & E & Hdm & He & Herr & Hexact); [done | lia | lia | |].
    { unfold magnitude. rewrite plus_IZR. pose proof (pow2_gt0 (Zdigits2 (Zpos mx) + ex - 53)).
      split; [lra | lra]. }
    destruct (Hexact eq_refl Hdz) as [Hm ->]. injection Hm as ->.
    assert (magnitude mz (Zdigits2 (Zpos mx) + ex - 53) = magnitude mx ex) as Hsame.
    { unfold magnitude. rewrite Hmz, mult_IZR, <- pow2_IZR by lia.
      rewrite Rmult_assoc, <- pow2_add. do 2 f_equal. lia. }
    exists mz, (Zdigits2 (Zpos mx) + ex - 53).
    split_and!; [done | done | lia | lia | | done].
    rewrite Hsame. replace (magnitude mx ex - magnitude mx ex)%R with 0%R by ring.
    rewrite Rabs_R0. pose proof (pow2_gt0 (-52)). pose proof (magnitude_gt0 mx ex).
    apply Rmult_le_pos; lra.
  - destruct (binary_round_aux_near s (Zpos mx) ex loc_Exact (magnitude mx ex))
      as (m & e & E & Hdm & He & Herr & Hexact); [done | lia | lia | |].
    { unfold magnitude. rewrite plus_IZR. pose proof (pow2_gt0 ex). split; [lra | lra]. }
    exists m, e. split_and!; [done | done | lia | lia | done |].
    intros H53. assert (Zdigits2 (Zpos mx) = 53) as Heq by lia.
    destruct (Hexact eq_refl Heq) as [Hm ->]. injection Hm as ->. split; [done | lia].
Qed.

(** [float(n)] is [n] for a positive integer below 2^53. *)
Lemma float_of_int_exact n :
  0 < n < 2 ^ 53 →
  ∃ m e, float_of_int n = S754_finite false m e ∧ Zdigits2 (Zpos m) = 53 ∧
         e = Zdigits2 n - 53 ∧ magnitude m e = IZR n.
Proof.
  intros [Hn Hbig]. destruct n as [|p|p]; try lia.
  assert (Zdigits2 (Zpos p) ≤ 53) as Hd.
  { destruct (Z.le_gt_cases (Zdigits2 (Zpos p)) 53) as [|Hgt]; [done |].
    pose proof (Zdigits2_spec (Zpos p) eq_refl) as [Hl _].
    assert (2 ^ 53 ≤ 2 ^ (Zdigits2 (Z.pos p) - 1)) by (apply Z.pow_le_mono_r; lia). lia. }
  pose proof (Zdigits2_pos_ge1 (Zpos p) eq_refl) as Hd1.
  unfold float_of_int, binary_normalize.
  destruct (binary_round_near false p 0) as (m & e & E & Hdm & He & _ & Hexact); [lia |].
  exists m, e. destruct (Hexact Hd) as [Hval ->].
  split_and!; [done | done | lia |].
  rewrite Hval. unfold magnitude. rewrite (pow2_IZR 0) by lia.
  change (IZR (2 ^ 0)) with 1%R. ring.
Qed.

Lemma normal_bounds m : Zdigits2 (Zpos m) = 53 → 2 ^ 52 ≤ Zpos m < 2 ^ 53.
Proof. intros H. pose proof (Zdigits2_spec (Zpos m) eq_refl) as Hs. by rewrite H in Hs. Qed.

(** The quotient of two normal numbers. *)
Lemma SFdiv_near m1 e1 m2 e2 :
  Zdigits2 (Zpos m1) = 53 → Zdigits2 (Zpos m2) = 53 → -900 ≤ e1 - e2 ≤ 900 →
  ∃ m e,
    SFdiv prec emax (S754_finite false m1 e1) (S754_finite false m2 e2)
      = S754_finite false m e ∧
    Zdigits2 (Zpos m) = 53 ∧ e1 - e2 - 53 ≤ e ≤ e1 - e2 - 51 ∧
    (Rabs (magnitude m e - magnitude m1 e1 / magnitude m2 e2)
       <= pow2 (-52) * (magnitude m1 e1 / magnitude m2 e2))%R.
Proof.
  intros H1 H2 He. unfold SFdiv, SFdiv_core_binary. rewrite H1, H2.
  rewrite fexp_normal by lia.
  replace (Z.min (53 + e1 - (53 + e2) - 53) (e1 - e2)) with (e1 - e2 - 53) by lia.
  replace (e1 - e2 - (e1 - e2 - 53)) with 53 by lia.
  cbv iota. rewrite Z.shiftl_mul_pow2 by lia.
  pose proof (normal_bounds m1 H1) as [Hl1 Hu1]. pose proof (normal_bounds m2 H2) as [Hl2 Hu2].
  pose proof (Z_div_mod (Zpos m1 * 2 ^ 53) (Zpos m2) ltac:(lia)) as Hdiv.
  destruct (Z.div_eucl (Zpos m1 * 2 ^ 53) (Zpos m2)) as [q r]. destruct Hdiv as [Hqr Hr].
  assert (2 ^ 52 ≤ q < 2 ^ 54) as Hq by (change (2 ^ 52) with 4503599627370496 in *;
    change (2 ^ 53) with 9007199254740992 in *; change (2 ^ 54) with 18014398509481984; nia).
  assert (53 ≤ Zdigits2 q ≤ 54) as Hdq.
  { pose proof (Zdigits2_spec q ltac:(lia)) as [Hlq Huq]. split.
    - destruct (Z.le_gt_cases 53 (Zdigits2 q)) as [|Hlt]; [done |].
      assert (2 ^ Zdigits2 q ≤ 2 ^ 52) by (apply Z.pow_le_mono_r; lia). lia.
    - destruct (Z.le_gt_cases (Zdigits2 q) 54) as [|Hgt]; [done |].
      assert (2 ^ 54 ≤ 2 ^ (Zdigits2 q - 1)) by (apply Z.pow_le_mono_r; lia). lia. }
  set (X := (magnitude m1 e1 / magnitude m2 e2)%R).
  pose proof (magnitude_gt0 m1 e1) as Hv1. pose proof (magnitude_gt0 m2 e2) as Hv2.
  assert (X * magnitude m2 e2 = magnitude m1 e1)%R as HX by (unfold X; field; lra).
  assert (pow2 (e1 - e2 - 53) * (IZR (2 ^ 53) * pow2 e2) = pow2 e1)%R as Hpow.
  { rewrite <- pow2_IZR, <- !pow2_add by lia. f_equal. lia. }
  pose proof (pow2_gt0 (e1 - e2 - 53)) as HP. pose proof (pow2_gt0 e2) as HP2.
  destruct (binary_round_aux_near false q (e1 - e2 - 53) (new_location (Zpos m2) r) X)
    as (m & e & E & Hdm & Hem & Herr & _); [lia | lia | lia | |].
  { split.
    - apply Rmult_le_reg_r with (magnitude m2 e2); [done |]. rewrite HX.
      unfold magnitude. rewrite <- Hpow.
      replace (IZR q * pow2 (e1 - e2 - 53) * (IZR (Zpos m2) * pow2 e2))%R
        with (IZR (Zpos m2 * q) * (pow2 (e1 - e2 - 53) * pow2 e2))%R
        by (rewrite mult_IZR; ring).
      replace (IZR (Zpos m1) * (pow2 (e1 - e2 - 53) * (IZR (2 ^ 53) * pow2 e2)))%R
        with (IZR (Zpos m1 * 2 ^ 53) * (pow2 (e1 - e2 - 53) * pow2 e2))%R
        by (rewrite mult_IZR; ring).
      apply Rmult_le_compat_r; [apply Rlt_le, Rmult_lt_0_compat; lra |].
      apply IZR_le. lia.
    - apply Rmult_lt_reg_r with (magnitude m2 e2); [done |]. rewrite HX.
      unfold magnitude. rewrite <- Hpow.
      replace (IZR (q + 1) * pow2 (e1 - e2 - 53) * (IZR (Zpos m2) * pow2 e2))%R
        with (IZR (Zpos m2 * (q + 1)) * (pow2 (e1 - e2 - 53) * pow2 e2))%R
        by (rewrite mult_IZR; ring).
      replace (IZR (Zpos m1) * (pow2 (e1 - e2 - 53) * (IZR (2 ^ 53) * pow2 e2)))%R
        with (IZR (Zpos m1 * 2 ^ 53) * (pow2 (e1 - e2 - 53) * pow2 e2))%R
        by (rewrite mult_IZR; ring).
      apply Rmult_lt_compat_r; [apply Rmult_lt_0_compat; lra |].
      apply IZR_lt. lia. }
  exists m, e. split_and!; [done | done | lia | lia | done].
Qed.

Lemma shl_align_fst mx ex ex' :
  ex' ≤ ex → Zpos (fst (shl_align mx ex ex')) = Zpos mx * 2 ^ (ex - ex').
Proof.
  intros Hle. destruct (shl_align_spec mx ex ex') as (mz & ez & -> & [(_ & _ & H)|(? & _ & H)]);
    simpl; [done |].
  rewrite H. replace (ex - ex') with 0 by lia. simpl. lia.
Qed.

Lemma Zdigits2_le m k : 0 < m → m < 2 ^ k → Zdigits2 m ≤ k.
Proof.
  intros Hm Hk. pose proof (Zdigits2_spec m Hm) as [Hl _].
  destruct (Z.le_gt_cases (Zdigits2 m) k) as [|Hgt]; [done |].
  assert (2 ^ k ≤ 2 ^ (Zdigits2 m - 1)).
  { apply Z.pow_le_mono_r; [lia |]. lia. }
  lia.
Qed.

(** The difference of two normal numbers: zero when they are equal,
    and otherwise a normal number with the sign of the difference. *)
Lemma SFsub_near m1 e1 m2 e2 :
  Zdigits2 (Zpos m1) = 53 → Zdigits2 (Zpos m2) = 53 →
  -900 ≤ e1 ≤ 900 → -900 ≤ e2 ≤ 900 →
  let v1 := magnitude m1 e1 in
  let v2 := magnitude m2 e2 in
  let diff := SFsub prec emax (S754_finite false m1 e1) (S754_finite false m2 e2) in
  (v1 = v2 ∧ diff = S754_zero false) ∨
  ∃ s m e,
    diff = S754_finite s m e ∧ Zdigits2 (Zpos m) = 53 ∧
    Z.min e1 e2 - 52 ≤ e ≤ Z.max e1 e2 + 1 ∧
    (Rabs (magnitude m e - Rabs (v1 - v2)) <= pow2 (-52) * Rabs (v1 - v2))%R.
Proof.
  intros H1 H2 He1 He2 v1 v2 diff. unfold diff, SFsub, cond_Zopp.
  set (ez := Z.min e1 e2).
  rewrite !shl_align_fst by (unfold ez; lia).
  pose proof (normal_bounds m1 H1) as [Hl1 Hu1]. pose proof (normal_bounds m2 H2) as [Hl2 Hu2].
  set (a := Zpos m1 * 2 ^ (e1 - ez)). set (b := Zpos m2 * 2 ^ (e2 - ez)).
  pose proof (pow2_pos (e1 - ez) ltac:(unfold ez; lia)) as Hp1.
  pose proof (pow2_pos (e2 - ez) ltac:(unfold ez; lia)) as Hp2.
  assert (v1 = IZR a * pow2 ez)%R as Hv1.
  { unfold v1, magnitude, a. rewrite mult_IZR, <- pow2_IZR by (unfold ez; lia).
    rewrite Rmult_assoc, <- pow2_add. do 2 f_equal. lia. }
  assert (v2 = IZR b * pow2 ez)%R as Hv2.
  { unfold v2, magnitude, b. rewrite mult_IZR, <- pow2_IZR by (unfold ez; lia).
    rewrite Rmult_assoc, <- pow2_add. do 2 f_equal. lia. }
  assert (v1 - v2 = IZR (a - b) * pow2 ez)%R as Hdiff by (rewrite Hv1, Hv2, minus_IZR; ring).
  pose proof (pow2_gt0 ez) as Hez.
  assert (a < 2 ^ (53 + (e1 - ez)) ∧ b < 2 ^ (53 + (e2 - ez))) as [Ha Hb].
  { rewrite !Z.pow_add_r by (unfold ez; lia). unfold a, b. split; nia. }
  assert (2 ^ (53 + (e1 - ez)) ≤ 2 ^ (53 + Z.max e1 e2 - ez) ∧
          2 ^ (53 + (e2 - ez)) ≤ 2 ^ (53 + Z.max e1 e2 - ez)) as [Ha' Hb']
    by (split; apply Z.pow_le_mono_r; lia).
  unfold binary_normalize.
  destruct (a - b) as [|p|p] eqn:Ez.
  - left. split; [| done]. apply Rminus_diag_uniq. rewrite Hdiff. simpl. ring.
  - right.
    assert (Zdigits2 (Zpos p) ≤ 53 + Z.max e1 e2 - ez) as Hd by (apply Zdigits2_le; lia).
    pose proof (Zdigits2_pos_ge1 (Zpos p) eq_refl) as Hd1.
    destruct (binary_round_near false p ez) as (m & e & E & Hdm & Hem & Herr & _);
      [unfold ez in *; lia |].
    exists false, m, e. split_and!; [done | done | unfold ez in *; lia | unfold ez in *; lia |].
    assert (Rabs (v1 - v2) = magnitude p ez) as ->; [| done].
    rewrite Hdiff. apply Rabs_pos_eq. apply Rlt_le, (magnitude_gt0 p ez).
  - right.
    assert (Zdigits2 (Zpos p) ≤ 53 + Z.max e1 e2 - ez) as Hd by (apply Zdigits2_le; lia).
    pose proof (Zdigits2_pos_ge1 (Zpos p) eq_refl) as Hd1.
    destruct (binary_round_near true p ez) as (m & e & E & Hdm & Hem & Herr & _);
      [unfold ez in *; lia |].
    exists true, m, e. split_and!; [done | done | unfold ez in *; lia | unfold ez in *; lia |].
    assert (Rabs (v1 - v2) = magnitude p ez) as ->; [| done].
    rewrite Hdiff. rewrite Rabs_left.
    + unfold magnitude. change (Zneg p) with (- Zpos p). rewrite opp_IZR. ring.
    + pose proof (magnitude_gt0 p ez) as Hpos. unfold magnitude in Hpos.
      change (Zneg p) with (- Zpos p). rewrite opp_IZR. lra.
Qed.

(** The product of [10000.0] and a normal number. *)
Lemma SFmul_10000_near s m e :
  Zdigits2 (Zpos m) = 53 → -1000 ≤ e ≤ 920 →
  ∃ m' e',
    SFmul prec emax float_10000 (S754_finite s m e) = S754_finite s m' e' ∧
    (Rabs (magnitude m' e' - 10000 * magnitude m e) <= pow2 (-52) * (10000 * magnitude m e))%R.
Proof.
  intros Hd He. unfold SFmul, float_10000. cbn [xorb].
  pose proof (normal_bounds m Hd) as [Hl Hu].
  set (mx := Zpos (5497558138880000 * m)).
  assert (mx = 5497558138880000 * Zpos m) as Hmx by done.
  assert (2 ^ 104 ≤ mx < 2 ^ 106) as Hb.
  { rewrite Hmx. change (2 ^ 52) with 4503599627370496 in *.
    change (2 ^ 53) with 9007199254740992 in *.
    change (2 ^ 104) with (4503599627370496 * 4503599627370496).
    change (2 ^ 106) with (9007199254740992 * 9007199254740992). nia. }
  assert (105 ≤ Zdigits2 mx ≤ 106) as Hdx.
  { split.
    - pose proof (Zdigits2_spec mx ltac:(lia)) as [_ Hux].
      destruct (Z.le_gt_cases 105 (Zdigits2 mx)) as [|Hlt]; [done |].
      assert (2 ^ Zdigits2 mx ≤ 2 ^ 104) by (apply Z.pow_le_mono_r; lia). lia.
    - apply Zdigits2_le; lia. }
  assert (10000 * magnitude m e = IZR mx * pow2 (-39 + e))%R as HX.
  { unfold magnitude. rewrite Hmx, mult_IZR, pow2_add.
    assert (IZR 5497558138880000 * pow2 (-39) = 10000)%R as <-; [| ring].
    change 5497558138880000 with (10000 * 2 ^ 39).
    rewrite mult_IZR, <- pow2_IZR, Rmult_assoc, <- pow2_add by lia.
    change (39 + -39) with 0. rewrite (pow2_IZR 0) by lia. change (IZR (2 ^ 0)) with 1%R. ring. }
  destruct (binary_round_aux_near s mx (-39 + e) loc_Exact (10000 * magnitude m e))
    as (m' & e' & E & _ & _ & Herr & _); [lia | lia | lia | |].
  { rewrite HX, plus_IZR. pose proof (pow2_gt0 (-39 + e)). split; [lra | lra]. }
  exists m', e'. split; [done | done].
Qed.

(** [int(abs(x))] for a finite float: the integer part of its
    magnitude. *)
Lemma int_of_float_abs s m e :
  ∃ r, int_of_float (SFabs (S754_finite s m e)) = Some r ∧
       (IZR r <= magnitude m e < IZR r + 1)%R.
Proof.
  simpl. unfold cond_Zopp. destruct (Z.leb_spec 0 e) as [He | He].
  - eexists. split; [done |]. unfold magnitude.
    rewrite mult_IZR, <- pow2_IZR by done. lra.
  - eexists. split; [done |]. unfold magnitude.
    pose proof (pow2_pos (- e) ltac:(lia)) as Hp.
    pose proof (Z.mul_div_le (Zpos m) (2 ^ (- e)) Hp) as Hlo.
    pose proof (Z.mul_succ_div_gt (Zpos m) (2 ^ (- e)) Hp) as Hhi.
    set (r := Zpos m / 2 ^ (- e)) in *.
    assert (pow2 e * IZR (2 ^ (- e)) = 1)%R as Hinv.
    { rewrite <- pow2_IZR, <- pow2_add by lia. replace (e + - e) with 0 by lia.
      rewrite (pow2_IZR 0) by lia. done. }
    pose proof (pow2_gt0 e) as Hpe.
    apply IZR_le in Hlo. apply IZR_lt in Hhi.
    rewrite mult_IZR in Hlo, Hhi. rewrite succ_IZR in Hhi.
    set (P := IZR (2 ^ (- e))) in *. set (M := IZR (Zpos m)) in *.
    assert (0 < P)%R by (apply IZR_lt; lia).
    split.
    + apply Rmult_le_reg_r with P; [done |].
      replace (M * pow2 e * P)%R with (M * (pow2 e * P))%R by ring. rewrite Hinv. lra.
    + apply Rmult_lt_reg_r with P; [done |].
      replace (M * pow2 e * P)%R with (M * (pow2 e * P))%R by ring. rewrite Hinv. lra.
Qed.

(** *** The claim and what holds of it *)

(** The average line length and the scaled difference as the
    specification has them, in exact arithmetic. *)
Definition average_linelength (content : list byte) : R :=
  if 0 <? count_content_lines content
  then (IZR (len content) / IZR (count_content_lines content))%R
  else 0%R.

Definition scaled_difference (content1 content2 : list byte) : R :=
  (10000 * Rabs (average_linelength content1 - average_linelength content2))%R.

Lemma pow2_m52 : pow2 (-52) = (/ 4503599627370496)%R.
Proof.
  assert (pow2 (-52) * 4503599627370496 = 1)%R as H.
  { change 4503599627370496%R with (IZR (2 ^ 52)).
    rewrite <- pow2_IZR, <- pow2_add by lia. change (-52 + 52) with 0.
    by rewrite (pow2_IZR 0) by lia. }
  apply Rmult_eq_reg_r with 4503599627370496%R; [| lra]. rewrite H. field.
Qed.

(** A float stands for a number: it is zero, or a normal number within
    one unit in the last place. *)
Definition approximates (x : spec_float) (A : R) : Prop :=
  (x = S754_zero false ∧ A = 0%R) ∨
  ∃ m e, x = S754_finite false m e ∧ Zdigits2 (Zpos m) = 53 ∧ -900 ≤ e ≤ 900 ∧
         (Rabs (magnitude m e - A) <= pow2 (-52) * A)%R.

Lemma scaled_difference_near (x1 x2 : spec_float) (A B : R) :
  approximates x1 A → approximates x2 B →
  (0 <= A <= 4294967296)%R → (0 <= B <= 4294967296)%R →
  ∃ r, int_of_float (SFabs (SFmul prec emax float_10000 (SFsub prec emax x1 x2))) = Some r ∧
       (10000 * Rabs (A - B) - 11 / 10 < IZR r <= 10000 * Rabs (A - B) + 1 / 10)%R.
Proof.
  intros [[-> ->]|(m1 & e1 & -> & Hd1 & He1 & Ha)] [[-> ->]|(m2 & e2 & -> & Hd2 & He2 & Hb)] HA HB;
    rewrite ?pow2_m52 in *.
  - exists 0. split; [done |]. replace (0 - 0)%R with 0%R by ring. rewrite Rabs_R0. lra.
  - (* no line in the first content *)
    cbn [SFsub negb].
    destruct (SFmul_10000_near true m2 e2 Hd2 ltac:(lia)) as (m & e & -> & Hp).
    destruct (int_of_float_abs true m e) as (r & -> & Hr).
    exists r. split; [done |]. rewrite pow2_m52 in Hp.
    set (b := magnitude m2 e2) in *. set (p := magnitude m e) in *. clearbody b p.
    unfold Rabs in *. repeat destruct Rcase_abs; lra.
  - cbn [SFsub].
    destruct (SFmul_10000_near false m1 e1 Hd1 ltac:(lia)) as (m & e & -> & Hp).
    destruct (int_of_float_abs false m e) as (r & -> & Hr).
    exists r. split; [done |]. rewrite pow2_m52 in Hp.
    set (a := magnitude m1 e1) in *. set (p := magnitude m e) in *. clearbody a p.
    unfold Rabs in *. repeat destruct Rcase_abs; lra.
  - pose proof (SFsub_near m1 e1 m2 e2 Hd1 Hd2 He1 He2) as Hsub. cbv zeta in Hsub.
    destruct Hsub as [[Heq ->]|(s & m & e & -> & Hd & He & Hdiff)].
    + exists 0. split; [done |].
      set (a := magnitude m1 e1) in *. set (b := magnitude m2 e2) in *. clearbody a b.
      unfold Rabs in *. repeat destruct Rcase_abs; lra.
    + destruct (SFmul_10000_near s m e Hd ltac:(lia)) as (m' & e' & -> & Hp).
      destruct (int_of_float_abs s m' e') as (r & -> & Hr).
      exists r. split; [done |]. rewrite pow2_m52 in Hp, Hdiff.
      set (a := magnitude m1 e1) in *. set (b := magnitude m2 e2) in *.
      set (d := magnitude m e) in *. set (p := magnitude m' e') in *. clearbody a b d p.
      unfold Rabs in *. repeat destruct Rcase_abs; lra.
Qed.

Lemma splitlines_from_length n data line :
  (length data ≤ n)%nat →
  (length (splitlines_from line data)
     ≤ length data + match line with [] => 0 | _ => 1 end)%nat.
Proof.
  revert data line. induction n as [|n IH]; intros data line Hn.
  - destruct data; [| simpl in Hn; lia]. destruct line; simpl; lia.
  - destruct data as [|b rest]; [destruct line; simpl; lia |].
    simpl in Hn. cbn [splitlines_from]. case_bool_decide.
    + cbn [length]. specialize (IH rest [] ltac:(lia)). simpl in IH. destruct line; lia.
    + case_bool_decide.
      * destruct rest as [|b' rest'].
        { simpl. destruct line; lia. }
        case_bool_decide.
        -- cbn [length]. simpl in Hn. specialize (IH rest' [] ltac:(lia)). simpl in IH.
           destruct line; lia.
        -- specialize (IH (b' :: rest') [] ltac:(lia)). cbn [length] in *.
           destruct line; lia.
      * specialize (IH rest (line ++ [b]) ltac:(lia)). cbn [length].
        destruct line; simpl in *; lia.
Qed.

Lemma count_content_lines_bounds data : 0 ≤ count_content_lines data ≤ len data.
Proof.
  unfold count_content_lines, splitlines, len.
  pose proof (splitlines_from_length (length data) data [] ltac:(lia)). simpl in *. lia.
Qed.

Lemma average_linelength_approx content :
  len content < 2 ^ 32 →
  approximates (avg_linelength (len content) (count_content_lines content))
               (average_linelength content) ∧
  (0 <= average_linelength content <= 4294967296)%R.
Proof.
  intros Hlen. pose proof (count_content_lines_bounds content) as Hlines.
  unfold avg_linelength, average_linelength.
  set (n := len content) in *. set (l := count_content_lines content) in *.
  destruct (Z.ltb_spec 0 l) as [Hl | Hl].
  - assert (2 ^ 32 < 2 ^ 53) by done.
    destruct (float_of_int_exact n ltac:(lia)) as (m1 & e1 & -> & Hd1 & He1 & Hv1).
    destruct (float_of_int_exact l ltac:(lia)) as (m2 & e2 & -> & Hd2 & He2 & Hv2).
    pose proof (Zdigits2_pos_ge1 n ltac:(lia)). pose proof (Zdigits2_pos_ge1 l ltac:(lia)).
    pose proof (Zdigits2_le n 32 ltac:(lia) ltac:(lia)).
    pose proof (Zdigits2_le l 32 ltac:(lia) ltac:(lia)).
    destruct (SFdiv_near m1 e1 m2 e2 Hd1 Hd2 ltac:(lia)) as (m & e & -> & Hd & He & Herr).
    rewrite Hv1, Hv2 in Herr.
    assert (1 <= IZR l)%R as HL by (apply IZR_le; lia).
    assert (0 <= IZR n <= 4294967295)%R as HN by (split; apply IZR_le; lia).
    assert (0 <= IZR n / IZR l <= 4294967296)%R as HA.
    { split.
      - apply Rmult_le_pos; [lra |]. apply Rlt_le, Rinv_0_lt_compat. lra.
      - apply Rmult_le_reg_r with (IZR l); [lra |].
        replace (IZR n / IZR l * IZR l)%R with (IZR n) by (field; lra). nra. }
    split; [| done]. right. exists m, e. split_and!; [done | done | lia | lia | done].
  - split; [by left | lra].
Qed.

(** The component that [avg_linelength_diffs] yields for a pair lies
    within a little more than one of the exact scaled difference:
    above it by at most a tenth, below it by less than one and a
    tenth. *)
Lemma avg_linelength_diff_near content1 content2 :
  len content1 < 2 ^ 32 → len content2 < 2 ^ 32 →
  ∃ r, avg_linelength_diff content1 content2 = Some r ∧
       (scaled_difference content1 content2 - 11 / 10 < IZR r
          <= scaled_difference content1 content2 + 1 / 10)%R.
Proof.
  intros H1 H2.
  destruct (average_linelength_approx content1 H1) as [Ha HA].
  destruct (average_linelength_approx content2 H2) as [Hb HB].
  apply (scaled_difference_near _ _ _ _ Ha Hb HA HB).
Qed.

(** Claim C9, as amended.  For every pair of a reference file and
    candidate bytes, both below 4 GiB, [avg_linelength_diffs] yields an
    integer that lies within a little more than one of the exact scaled
    difference of the average line lengths: it is the integer part of
    a value computed in double precision, so it is above the exact
    value by at most a tenth and below it by less than one and a
    tenth. *)
Theorem avg_linelength_diffs_near (get_cached_file : string → list byte)
    (diffargs : list (string * list byte)) :
  Forall (fun '(filename1, content2) =>
            len (get_cached_file filename1) < 2 ^ 32 ∧ len content2 < 2 ^ 32) diffargs →
  Forall2 (fun '(filename1, content2) component =>
             ∃ r, component = Some r ∧
                  (scaled_difference (get_cached_file filename1) content2 - 11 / 10 < IZR r
                     <= scaled_difference (get_cached_file filename1) content2 + 1 / 10)%R)
          diffargs (avg_linelength_diffs get_cached_file diffargs).
Proof.
  induction 1 as [|[filename1 content2] diffargs [H1 H2] _ IH]; [constructor |].
  constructor; [| exact IH]. by apply avg_linelength_diff_near.
Qed.

(** Ten lines in twelve bytes, ten lines in eleven bytes, three lines
    in eight bytes. *)
Definition twelve_in_ten : list byte :=
  bytestr ("a" +:+ String "010" ("b" +:+ String "010" (String "010" (String "010"
    (String "010" (String "010" (String "010" (String "010" (String "010"
    (String "010" "")))))))))).
Definition eleven_in_ten : list byte :=
  bytestr ("a" +:+ String "010" (String "010" (String "010" (String "010" (String "010"
    (String "010" (String "010" (String "010" (String "010" (String "010" "")))))))))).
Definition eight_in_three : list byte :=
  bytestr ("abc" +:+ String "010" ("de" +:+ String "010" "f")).

Lemma avg_linelength_diffs_near_witness :
  Forall2 (fun '(filename1, content2) component =>
             ∃ r, component = Some r ∧
                  (scaled_difference twelve_in_ten content2 - 11 / 10 < IZR r
                     <= scaled_difference twelve_in_ten content2 + 1 / 10)%R)
          [("a.c", eleven_in_ten)]
          (avg_linelength_diffs (fun _ => twelve_in_ten) [("a.c", eleven_in_ten)]).
Proof.
  apply (avg_linelength_diffs_near (fun _ => twelve_in_ten) [("a.c", eleven_in_ten)]).
  constructor; [| constructor]. split; reflexivity.
Defined.

Lemma average_linelength_lines content n l :
  len content = n → count_content_lines content = l → 0 < l →
  average_linelength content = (IZR n / IZR l)%R.
Proof.
  intros <- <- Hl. unfold average_linelength.
  by rewrite (proj2 (Z.ltb_lt _ _) Hl).
Qed.

(** Claim C9 fails as stated.  The exact scaled difference of 12 bytes
    in 10 lines and 11 bytes in 10 lines is the integer 1000, and the
    code yields 999; for 8 bytes in 3 lines against an empty content it
    is 26666 and two thirds, which rounds to 26667, and the code yields
    26666. *)
Lemma avg_linelength_diff_not_rounded :
  avg_linelength_diff twelve_in_ten eleven_in_ten = Some 999 ∧
  scaled_difference twelve_in_ten eleven_in_ten = 1000%R ∧
  avg_linelength_diff eight_in_three [] = Some 26666 ∧
  (26666 + 1 / 2 < scaled_difference eight_in_three [])%R.
Proof.
  split_and!.
  - vm_compute. reflexivity.
  - unfold scaled_difference.
    rewrite (average_linelength_lines twelve_in_ten 12 10) by done.
    rewrite (average_linelength_lines eleven_in_ten 11 10) by done.
    replace (12 / 10 - 11 / 10)%R with (1 / 10)%R by field.
    rewrite Rabs_pos_eq by lra. field.
  - vm_compute. reflexivity.
  - unfold scaled_difference.
    rewrite (average_linelength_lines eight_in_three 8 3) by done.
    unfold average_linelength. change (0 <? count_content_lines []) with false. cbv iota.
    replace (8 / 3 - 0)%R with (8 / 3)%R by field.
    rewrite Rabs_pos_eq by lra. lra.
Qed.

End LinelengthFacts.
